(** * MVO converter ([generate_outputs.py]): model and verified properties

    The script reads a line-oriented "MVO" description of objects and
    projects the parsed records into a MIDI score and a VTK scene.  This
    development embeds the three functions of the script,
    [load_objects_from_mvo], [create_midi_from_mvo] and
    [create_vtk_from_mvo] (with [note_to_midi] and [main]), together with
    the Python built-ins they rely on, and proves the properties of the
    specification against that embedding.

    Modelling conventions.
    - A Python [str] is a [string]; a character is a code point below 256.
    - A Python [float] is an IEEE binary64 value, written as a
      [spec_float] (sign, mantissa, binary exponent; infinities; NaN).
    - A [dict] is a [gmap]; the dicts made by the parser live in a store
      (a list indexed by reference) because the script appends the
      accumulator object itself to the result list and keeps writing to it.
    - An exception is a value of [exn]; a computation that may raise
      returns a [result].
    - The calls made on the external [MIDIFile] and on the VTK renderer
      are recorded, in order, as the output of the two builders. *)

From Stdlib Require Import ZArith QArith Qround.
From Stdlib Require Import SpecFloat.
From Stdlib Require Import Ascii String.
From stdpp Require Import gmap strings list fin_maps.

(* ===================================================================== *)
(** * Exceptions and results *)
(* ===================================================================== *)

(** What a [ValueError] complains about. *)
Inductive value_error :=
  | NotEnoughValues            (* unpacking a short list into [key, value] *)
  | BadFloat (s : string)      (* float(s) on a string that is no number  *)
  | BadInt (s : string)        (* int(s) on a string that is no integer   *)
  | NanToInt.                  (* int(nan)                                *)

Inductive exn :=
  | ValueError (w : value_error)
  | KeyError (key : string)
  | IndexError
  | OverflowError              (* int(inf) *)
  | AttributeError             (* .split on a non-string *)
  | TypeError.

Inductive result (A : Type) :=
  | Ok (a : A)
  | Err (e : exn).
Arguments Ok {A} a.
Arguments Err {A} e.

#[global] Instance result_ret : MRet result := λ A a, Ok a.
#[global] Instance result_bind : MBind result :=
  λ A B f m, match m with Ok a => f a | Err e => Err e end.
#[global] Instance result_fmap : FMap result :=
  λ A B f m, match m with Ok a => Ok (f a) | Err e => Err e end.

(** A Python [for] loop whose body may raise: the state is threaded
    through the elements and the first exception ends the loop. *)
Fixpoint for_each {S A : Type} (body : S → A → result S) (st : S) (l : list A)
  : result S :=
  match l with
  | [] => Ok st
  | x :: l' => st' ← body st x; for_each body st' l'
  end.

(** [tuple(map(f, l))]: elements are converted left to right. *)
Fixpoint map_result {A B : Type} (f : A → result B) (l : list A) : result (list B) :=
  match l with
  | [] => Ok []
  | x :: l' => y ← f x; ys ← map_result f l'; Ok (y :: ys)
  end.

(** [l[i]] on a list. *)
Definition list_index {A : Type} (l : list A) (i : nat) : result A :=
  match l !! i with
  | Some x => Ok x
  | None => Err IndexError
  end.

(* ===================================================================== *)
(** * Python strings *)
(* ===================================================================== *)

Module PyStr.

Definition code (c : ascii) : N := N_of_ascii c.

Definition in_range (lo hi : N) (c : ascii) : bool :=
  ((lo <=? code c) && (code c <=? hi))%N.

(** [str.isspace] on code points below 256: TAB..CR, FS..US, space,
    NEL (0x85) and NBSP (0xA0).  This is what [str.strip()] removes. *)
Definition isspace (c : ascii) : bool :=
  in_range 9 13 c || in_range 28 32 c || (code c =? 133)%N || (code c =? 160)%N.

Fixpoint lstrip_by (sp : ascii → bool) (s : string) : string :=
  match s with
  | String c s' => if sp c then lstrip_by sp s' else s
  | EmptyString => EmptyString
  end.

Fixpoint rstrip_by (sp : ascii → bool) (s : string) : string :=
  match s with
  | EmptyString => EmptyString
  | String c s' =>
      match rstrip_by sp s' with
      | EmptyString => if sp c then EmptyString else String c EmptyString
      | r => String c r
      end
  end.

Definition strip_by (sp : ascii → bool) (s : string) : string :=
  rstrip_by sp (lstrip_by sp s).

(** [s.strip()] *)
Definition strip (s : string) : string := strip_by isspace s.

(** [s] without the prefix [p], when [s] starts with [p]. *)
Fixpoint strip_prefix (p s : string) : option string :=
  match p, s with
  | EmptyString, _ => Some s
  | String a p', String b s' => if Ascii.eqb a b then strip_prefix p' s' else None
  | String _ _, EmptyString => None
  end.

(** [s.partition(sep)] when [sep] occurs: the text before and after
    the first (leftmost) occurrence of [sep]. *)
Fixpoint find (sep s : string) : option (string * string) :=
  match strip_prefix sep s with
  | Some rest => Some (EmptyString, rest)
  | None =>
      match s with
      | EmptyString => None
      | String c s' =>
          match find sep s' with
          | Some (a, b) => Some (String c a, b)
          | None => None
          end
      end
  end.

(** [sep in s] *)
Definition contains (sep s : string) : bool :=
  match find sep s with Some _ => true | None => false end.

(** [s.split(sep, 1)] *)
Definition split_once (sep s : string) : list string :=
  match find sep s with
  | Some (a, b) => [a; b]
  | None => [s]
  end.

(** [s.split(sep)] for a non-empty [sep]: cut at every occurrence, left
    to right.  Each cut consumes at least one character, so [n] cuts are
    enough for a string of length [n] ([split_fuel_enough]). *)
Fixpoint split_fuel (n : nat) (sep s : string) : list string :=
  match n with
  | O => [s]
  | S n' =>
      match find sep s with
      | Some (a, b) => a :: split_fuel n' sep b
      | None => [s]
      end
  end.

Definition split (sep s : string) : list string :=
  split_fuel (String.length s) sep s.

Definition is_digit (c : ascii) : bool := in_range 48 57 c.

Definition digit_val (c : ascii) : N := (code c - 48)%N.

(** Reads the longest run of decimal digits at the head of [s],
    accumulating into [acc]; returns the value, the number of digits
    read and the rest of the string. *)
Fixpoint read_digits (acc : N) (cnt : nat) (s : string) : N * nat * string :=
  match s with
  | String c s' =>
      if is_digit c then read_digits (10 * acc + digit_val c)%N (S cnt) s'
      else (acc, cnt, s)
  | EmptyString => (acc, cnt, s)
  end.

(** An optional leading sign: [true] for a minus. *)
Definition read_sign (s : string) : bool * string :=
  match s with
  | String "-" s' => (true, s')
  | String "+" s' => (false, s')
  | _ => (false, s)
  end.

(** ASCII lower-casing, for the case-insensitive [inf] and [nan]. *)
Definition lower (c : ascii) : ascii :=
  if in_range 65 90 c then ascii_of_N (code c + 32) else c.

Fixpoint lowercase (s : string) : string :=
  match s with
  | EmptyString => EmptyString
  | String c s' => String (lower c) (lowercase s')
  end.

(** Digit-group underscores of numeric literals: an underscore must
    stand between two digits.  Returns the string without them, or
    [None] when one is misplaced.  [prev] is the previous character. *)
Fixpoint drop_underscores (prev : option ascii) (s : string) : option string :=
  match s with
  | EmptyString =>
      match prev with
      | Some "_"%char => None
      | _ => Some EmptyString
      end
  | String c s' =>
      if Ascii.eqb c "_" then
        match prev with
        | Some p => if is_digit p then drop_underscores (Some c) s' else None
        | None => None
        end
      else
        match prev with
        | Some "_"%char =>
            if is_digit c then String c <$> drop_underscores (Some c) s' else None
        | _ => String c <$> drop_underscores (Some c) s'
        end
  end.

(** The white space that [float()] and [int()] skip around a literal:
    TAB..CR and space, and the non-ASCII spaces NEL and NBSP. *)
Definition num_space (c : ascii) : bool :=
  in_range 9 13 c || (code c =? 32)%N || (code c =? 133)%N || (code c =? 160)%N.

End PyStr.

(* ===================================================================== *)
(** * Python floats *)
(* ===================================================================== *)

Module PyFloat.

(** binary64 *)
Definition prec : Z := 53.
Definition emax : Z := 1024.

(** The double nearest to [± m · 10^e10] (ties to even; overflow goes
    to an infinity), obtained by one correctly rounded division. *)
Definition of_decimal (neg : bool) (m : N) (e10 : Z) : spec_float :=
  match m with
  | N0 => S754_zero neg
  | Npos p =>
      let num := match e10 with Zpos k => (p * 10 ^ k)%positive | _ => p end in
      let den := match e10 with Zneg k => (10 ^ k)%positive | _ => 1%positive end in
      SFdiv prec emax (S754_finite neg num 0) (S754_finite false den 0)
  end.

(** A decimal literal [digits [. digits] [(e|E) [sign] digits]] with at
    least one digit in the mantissa; the whole string must be used. *)
Definition parse_decimal (s : string) : option (N * Z) :=
  let '(ip, n1, r1) := PyStr.read_digits 0 0 s in
  let '(m, n2, r2) :=
    match r1 with
    | String "." r => PyStr.read_digits ip 0 r
    | _ => (ip, O, r1)
    end in
  if (n1 + n2 =? 0)%nat then None
  else
    match r2 with
    | EmptyString => Some (m, - Z.of_nat n2)%Z
    | String c r3 =>
        if Ascii.eqb (PyStr.lower c) "e" then
          let '(eneg, r4) := PyStr.read_sign r3 in
          let '(ex, n3, r5) := PyStr.read_digits 0 0 r4 in
          match n3, r5 with
          | S _, EmptyString =>
              Some (m, (if eneg then - Z.of_N ex else Z.of_N ex) - Z.of_nat n2)%Z
          | _, _ => None
          end
        else None
    end.

(** [float(s)]: [None] stands for the [ValueError] it raises. *)
Definition of_string (s : string) : option spec_float :=
  s1 ← PyStr.drop_underscores None s;
  let s2 := PyStr.strip_by PyStr.num_space s1 in
  let '(neg, body) := PyStr.read_sign s2 in
  let low := PyStr.lowercase body in
  if String.eqb low "inf" || String.eqb low "infinity" then Some (S754_infinity neg)
  else if String.eqb low "nan" then Some S754_nan
  else '(m, e10) ← parse_decimal body; Some (of_decimal neg m e10).

(** [float(s)] as a computation. *)
Definition float (s : string) : result spec_float :=
  match of_string s with
  | Some f => Ok f
  | None => Err (ValueError (BadFloat s))
  end.

(** [int(f)]: truncation toward zero; infinities and NaN raise. *)
Definition to_int (f : spec_float) : result Z :=
  match f with
  | S754_zero _ => Ok 0%Z
  | S754_infinity _ => Err OverflowError
  | S754_nan => Err (ValueError NanToInt)
  | S754_finite s m e => Ok (cond_Zopp s (Z.shiftl (Zpos m) e))
  end.

(** The rational number a finite float stands for. *)
Definition to_Q (f : spec_float) : option Q :=
  match f with
  | S754_zero _ => Some 0%Q
  | S754_finite s m e =>
      let n := cond_Zopp s (Zpos m) in
      Some match e with
           | Z0 => n # 1
           | Zpos k => (n * 2 ^ Zpos k) # 1
           | Zneg k => n # (2 ^ k)
           end
  | _ => None
  end.

(** [int(s)] on a string, base 10: optional sign, digits (with digit
    group underscores), white space around. *)
Definition int_of_string (s : string) : result Z :=
  match
    s1 ← PyStr.drop_underscores None s;
    let '(neg, body) := PyStr.read_sign (PyStr.strip_by PyStr.num_space s1) in
    match PyStr.read_digits 0 0 body with
    | (n, S _, EmptyString) => Some (if neg then - Z.of_N n else Z.of_N n)%Z
    | _ => None
    end
  with
  | Some z => Ok z
  | None => Err (ValueError (BadInt s))
  end.

End PyFloat.

(* ===================================================================== *)
(** * Object records *)
(* ===================================================================== *)

(** The values the parser stores in a record. *)
Inductive value :=
  | VStr (s : string)
  | VFloat (f : spec_float)
  | VTuple (fs : list spec_float).

(** An object record: a dict from field names to values. *)
Abbreviation record := (gmap string value).

(** [obj[key]] *)
Definition getitem (obj : record) (key : string) : result value :=
  match obj !! key with
  | Some v => Ok v
  | None => Err (KeyError key)
  end.

(** [v.split(sep)]: only strings have the method. *)
Definition split_value (v : value) (sep : string) : result (list string) :=
  match v with
  | VStr s => Ok (PyStr.split sep s)
  | _ => Err AttributeError
  end.

(** [int(v)] *)
Definition int_value (v : value) : result Z :=
  match v with
  | VFloat f => PyFloat.to_int f
  | VStr s => PyFloat.int_of_string s
  | VTuple _ => Err TypeError
  end.

(** Truth value of a dict: non-empty. *)
Definition truthy (obj : record) : bool := negb (size obj =? 0)%nat.

(** The typing discipline of parsed records: [position] holds a tuple of
    floats, [size_duration] a float, every other field a string. *)
Definition field_typed (key : string) (v : value) : Prop :=
  match v with
  | VTuple _ => key = "position"
  | VFloat _ => key = "size_duration"
  | VStr _ => key ≠ "position" ∧ key ≠ "size_duration"
  end.

Definition typed (obj : record) : Prop :=
  ∀ key v, obj !! key = Some v → field_typed key v.

(* ===================================================================== *)
(** * Note resolver *)
(* ===================================================================== *)

Definition note_table : list (string * Z) :=
  [ ("C4", 60); ("D4", 62); ("E4", 64); ("F4", 65);
    ("G4", 67); ("A4", 69); ("B4", 71);
    ("C5", 72); ("D5", 74); ("E5", 76); ("F5", 77) ]%Z.

Definition note_mappings : gmap string Z := list_to_map note_table.

(** First value bound to [key] in an association list. *)
Fixpoint assoc {V : Type} (key : string) (l : list (string * V)) : option V :=
  match l with
  | [] => None
  | (k, v) :: l' => if String.eqb key k then Some v else assoc key l'
  end.

(** [note_mappings.get(note, 60)] *)
Definition note_to_midi (note : string) : Z :=
  default 60%Z (note_mappings !! note).

(** The standard MIDI number of a natural note: twelve semitones per
    octave, C of octave -1 at 0, so that C4 (Middle C) is 60. *)
Definition semitone (letter : ascii) : option Z :=
  match letter with
  | "C" => Some 0 | "D" => Some 2 | "E" => Some 4 | "F" => Some 5
  | "G" => Some 7 | "A" => Some 9 | "B" => Some 11
  | _ => None
  end%char%Z.

Definition standard_pitch (name : string) : option Z :=
  match name with
  | String letter (String digit EmptyString) =>
      if PyStr.is_digit digit then
        st ← semitone letter;
        Some (12 * (Z.of_N (PyStr.digit_val digit) + 1) + st)%Z
      else None
  | _ => None
  end.

(** The pitch the resolver is expected to give: the standard number of
    a natural note between C4 and F5, and Middle C for anything else. *)
Definition resolved_pitch (name : string) : Z :=
  match standard_pitch name with
  | Some p => if ((60 <=? p) && (p <=? 77))%Z then p else 60%Z
  | None => 60%Z
  end.

(* ===================================================================== *)
(** * Format parser: [load_objects_from_mvo] *)
(* ===================================================================== *)

(** State of the loop: the store of dict objects, the list [objects] of
    references appended so far, and the reference [current_object]. *)
Record parser_state := ParserState {
  store : list record;
  objects : list nat;
  current_object : nat
}.

(** The dict a reference points to. *)
Definition deref (h : list record) (r : nat) : record := default ∅ (h !! r).

(** [current_object[key] = v]: an update in place of the dict object. *)
Definition setitem (st : parser_state) (key : string) (v : value) : parser_state :=
  ParserState (alter (insert key v) (current_object st) (store st))
              (objects st) (current_object st).

(** Coercion of a field value: the right-hand side of the assignment. *)
Definition coerce (key val : string) : result value :=
  if String.eqb key "position" then
    fs ← map_result PyFloat.float (PyStr.split ", " val); Ok (VTuple fs)
  else if String.eqb key "size_duration" then
    f ← PyFloat.float val; Ok (VFloat f)
  else Ok (VStr val).

(** [key, value = line.split(': ', 1)] followed by the assignment. *)
Definition field_line (line : string) : result (string * value) :=
  match PyStr.split_once ": " line with
  | [key; val] => v ← coerce key val; Ok (key, v)
  | _ => Err (ValueError NotEnoughValues)
  end.

(** One iteration of the loop over the lines of the file. *)
Definition parse_line (st : parser_state) (raw : string) : result parser_state :=
  let line := PyStr.strip raw in
  if String.eqb line "begin_object" then
    (* current_object = {} : a new dict object *)
    Ok (ParserState (store st ++ [∅]) (objects st) (length (store st)))
  else if String.eqb line "end_object" then
    if truthy (deref (store st) (current_object st)) then
      (* objects.append(current_object) : the reference is appended *)
      Ok (ParserState (store st) (objects st ++ [current_object st]) (current_object st))
    else Ok st
  else if negb (String.eqb line "") && PyStr.contains ":" line then
    '(key, v) ← field_line line; Ok (setitem st key v)
  else Ok st.

(** [objects = []] and, inside the [with], [current_object = {}]. *)
Definition parser_init : parser_state := ParserState [∅] [] 0.

Definition parse_lines (lines : list string) : result parser_state :=
  for_each parse_line parser_init lines.

(** The function returns the list [objects]; the store it points into is
    returned with it. *)
Definition load_objects_from_mvo (lines : list string)
  : result (list record * list nat) :=
  st ← parse_lines lines; Ok (store st, objects st).

(** What a reader of the returned list sees: one dict per entry. *)
Definition records_of (res : list record * list nat) : list record :=
  deref (fst res) <$> snd res.

(* ===================================================================== *)
(** * Score builder: [create_midi_from_mvo] *)
(* ===================================================================== *)

(** Calls on the [MIDIFile] object, with their arguments in order. *)
Inductive midi_call :=
  | AddTrackName (track : nat) (time : Z) (name : string)
  | AddTempo (track : nat) (time : Z) (tempo : Z)
  | AddProgramChange (track channel : nat) (time : Z) (program : Z)
  | AddNote (track channel : nat) (pitch : Z) (time : Z) (duration : Z) (volume : Z).

(** Loop state: [track_details], [current_track] and the calls made on
    [midi] so far.  ([tempo_set] is created by the script and never used.) *)
Record score_state := ScoreState {
  track_details : gmap string nat;
  current_track : nat;
  midi : list midi_call
}.

Definition score_init : score_state := ScoreState ∅ 0 [].

(** The [if instrument not in track_details] block. *)
Definition ensure_track (st : score_state) (instrument : string) : score_state :=
  match track_details st !! instrument with
  | Some _ => st
  | None =>
      ScoreState (<[instrument := current_track st]> (track_details st))
                 (current_track st + 1)
                 (midi st ++ [AddTrackName (current_track st) 0 instrument;
                              AddTempo (current_track st) 0 120])
  end.

(** The body of [for obj in objects]. *)
Definition score_step (st : score_state) (obj : record) : result score_state :=
  shape_field ← getitem obj "instrument_shape";
  parts ← split_value shape_field "_";
  instrument ← list_index parts 0;
  let st1 := ensure_track st instrument in
  track ← match track_details st1 !! instrument with
          | Some t => Ok t
          | None => Err (KeyError instrument)
          end;
  let channel := 0%nat in
  color_field ← getitem obj "note_color";
  cparts ← split_value color_field "_";
  token ← list_index cparts 0;
  let note := note_to_midi token in
  size ← getitem obj "size_duration";
  duration ← int_value size;
  let volume := 100%Z in
  Ok (ScoreState (track_details st1) (current_track st1)
        (midi st1 ++ [AddProgramChange track channel 0 1;
                      AddNote track channel note 0 duration volume])).

(** The document handed to the writer: [MIDIFile(len(objects))] and the
    calls made on it. *)
Record midi_file := MidiFile {
  num_tracks : nat;
  calls : list midi_call
}.

Definition build_score (objs : list record) : result midi_file :=
  st ← for_each score_step score_init objs;
  Ok (MidiFile (length objs) (midi st)).

Definition create_midi_from_mvo (lines : list string) : result midi_file :=
  res ← load_objects_from_mvo lines;
  build_score (records_of res).

(* ===================================================================== *)
(** * Scene builder: [create_vtk_from_mvo] *)
(* ===================================================================== *)

Inductive primitive :=
  | Sphere (radius : spec_float)
  | Cube (xlength ylength zlength : spec_float).

(** An actor added to the renderer: its source, the colour name given
    to [GetColor3d] and the three arguments of [SetPosition]. *)
Record solid := Solid {
  geometry : primitive;
  color_name : string;
  position : spec_float * spec_float * spec_float
}.

(** A size handed to a VTK setter must be a number. *)
Definition float_arg (v : value) : result spec_float :=
  match v with
  | VFloat f => Ok f
  | _ => Err TypeError
  end.

(** [actor.SetPosition( *v )]: three numbers are expected. *)
Definition position_args (v : value) : result (spec_float * spec_float * spec_float) :=
  match v with
  | VTuple [x; y; z] => Ok (x, y, z)
  | _ => Err TypeError
  end.

(** The body of [for obj in objects]; the state is the list of actors
    of the renderer. *)
Definition scene_step (actors : list solid) (obj : record) : result (list solid) :=
  shape_field ← getitem obj "instrument_shape";
  parts ← split_value shape_field "_";
  shape ← list_index parts 1;
  color_field ← getitem obj "note_color";
  cparts ← split_value color_field "_";
  color ← list_index cparts 1;
  size ← getitem obj "size_duration";
  if String.eqb shape "sphere" then
    r ← float_arg size;
    pos_field ← getitem obj "position";
    pos ← position_args pos_field;
    Ok (actors ++ [Solid (Sphere r) color pos])
  else if String.eqb shape "cube" then
    r ← float_arg size;
    pos_field ← getitem obj "position";
    pos ← position_args pos_field;
    Ok (actors ++ [Solid (Cube r r r) color pos])
  else
    (* continue *)
    Ok actors.

Definition build_scene (objs : list record) : result (list solid) :=
  for_each scene_step [] objs.

Definition create_vtk_from_mvo (lines : list string) : result (list solid) :=
  res ← load_objects_from_mvo lines;
  build_scene (records_of res).

(* ===================================================================== *)
(** * Command line: [main] *)
(* ===================================================================== *)

Inductive artifact :=
  | MidiOutput (doc : midi_file)      (* output.mid written *)
  | SceneOutput (scene : list solid). (* scene rendered *)

(** A run with the flags [--midi] and [--vtk]: the artifacts produced,
    and the exception that ended the run, if any. *)
Definition main (lines : list string) (midi_flag vtk_flag : bool)
  : list artifact * option exn :=
  let '(out, failure) :=
    if midi_flag then
      match create_midi_from_mvo lines with
      | Ok doc => ([MidiOutput doc], None)
      | Err e => ([], Some e)
      end
    else ([], None) in
  match failure with
  | Some e => (out, Some e)
  | None =>
      if vtk_flag then
        match create_vtk_from_mvo lines with
        | Ok scene => (out ++ [SceneOutput scene], None)
        | Err e => (out, Some e)
        end
      else (out, None)
  end.

(* ===================================================================== *)
(** * Notions used to state the properties *)
(* ===================================================================== *)

(** The text before the first occurrence of [sep] (all of [s] when
    [sep] does not occur). *)
Definition before_first (sep s : string) : string :=
  match PyStr.find sep s with
  | Some (a, _) => a
  | None => s
  end.

(** The instrument token of a record: the part of [instrument_shape]
    before the first underscore. *)
Definition instrument_token (obj : record) : string :=
  match obj !! "instrument_shape" with
  | Some (VStr s) => before_first "_" s
  | _ => ""
  end.

(** The note token: the part of [note_color] before the first underscore. *)
Definition note_token (obj : record) : string :=
  match obj !! "note_color" with
  | Some (VStr s) => before_first "_" s
  | _ => ""
  end.

Definition is_finite (f : spec_float) : bool :=
  match f with
  | S754_zero _ | S754_finite _ _ _ => true
  | _ => false
  end.

(** Integer part of a finite float, toward zero. *)
Definition truncate (f : spec_float) : Z :=
  match f with
  | S754_finite s m e => cond_Zopp s (Z.shiftl (Zpos m) e)
  | _ => 0%Z
  end.

(** The beat count of a record: [int] of its size. *)
Definition beats (obj : record) : Z :=
  match obj !! "size_duration" with
  | Some v => match int_value v with Ok n => n | Err _ => 0%Z end
  | None => 0%Z
  end.

(** A record the score builder can process: the three fields it reads
    are present, the two compound tokens are strings and the size has
    an integer part (for a float: it is finite). *)
Definition score_ready (obj : record) : Prop :=
  ∃ a b v n,
    obj !! "instrument_shape" = Some (VStr a) ∧
    obj !! "note_color" = Some (VStr b) ∧
    obj !! "size_duration" = Some v ∧
    int_value v = Ok n.

(** Distinct elements in order of first occurrence. *)
Fixpoint first_seen (l : list string) : list string :=
  match l with
  | [] => []
  | x :: l' => x :: filter (λ y, y ≠ x) (first_seen l')
  end.

(** Position of the first occurrence of [x] in [l]. *)
Fixpoint index_of (x : string) (l : list string) : option nat :=
  match l with
  | [] => None
  | y :: l' => if decide (x = y) then Some 0%nat else S <$> index_of x l'
  end.

Definition is_track_name (c : midi_call) : bool :=
  match c with AddTrackName _ _ _ => true | _ => false end.
Definition is_tempo (c : midi_call) : bool :=
  match c with AddTempo _ _ _ => true | _ => false end.
Definition is_program_change (c : midi_call) : bool :=
  match c with AddProgramChange _ _ _ _ => true | _ => false end.
Definition is_note (c : midi_call) : bool :=
  match c with AddNote _ _ _ _ _ _ => true | _ => false end.

(** The note event a record is expected to yield, given the tracks. *)
Definition expected_note (tracks : list string) (obj : record) : midi_call :=
  AddNote (default 0%nat (index_of (instrument_token obj) tracks)) 0
          (note_to_midi (note_token obj)) 0 (beats obj) 100.

(** The tracks known to the loop are the instruments seen so far, in
    order; the name and tempo calls made so far are theirs. *)
Record score_inv (st : score_state) (seen : list string) : Prop := ScoreInv {
  inv_details : ∀ name, track_details st !! name = index_of name seen;
  inv_counter : current_track st = length seen;
  inv_names : filter is_track_name (midi st) = imap (λ k n, AddTrackName k 0 n) seen;
  inv_tempos : filter is_tempo (midi st) = imap (λ k _, AddTempo k 0 120) seen
}.

Definition see (seen : list string) (x : string) : list string :=
  if decide (x ∈ seen) then seen else seen ++ [x].

(** The second underscore-separated component of a string field. *)
Definition second_token (obj : record) (key : string) : option string :=
  match obj !! key with
  | Some (VStr s) => PyStr.split "_" s !! 1%nat
  | _ => None
  end.

Definition float_field (obj : record) (key : string) : option spec_float :=
  match obj !! key with
  | Some (VFloat f) => Some f
  | _ => None
  end.

Definition position_field (obj : record) : option (spec_float * spec_float * spec_float) :=
  match obj !! "position" with
  | Some (VTuple [x; y; z]) => Some (x, y, z)
  | _ => None
  end.

Definition recognized (shape : string) : bool :=
  String.eqb shape "sphere" || String.eqb shape "cube".

(** The solid a record stands for: for the shape token [sphere], a
    sphere whose radius is the size; for [cube], a cube whose three edges
    are the size; with the colour token and the position of the record.
    Any other shape token stands for no solid. *)
Definition expected_solid (obj : record) : option solid :=
  shape ← second_token obj "instrument_shape";
  if recognized shape then
    color ← second_token obj "note_color";
    size ← float_field obj "size_duration";
    pos ← position_field obj;
    Some (Solid (if String.eqb shape "sphere" then Sphere size
                 else Cube size size size) color pos)
  else None.

(** A record the scene builder can process: both compound tokens have a
    second component and the size is present; a sphere or cube also has
    a numeric size and a position of three numbers. *)
Definition scene_ready (obj : record) : Prop :=
  ∃ shape color,
    second_token obj "instrument_shape" = Some shape ∧
    second_token obj "note_color" = Some color ∧
    is_Some (obj !! "size_duration") ∧
    (recognized shape = true →
       is_Some (float_field obj "size_duration") ∧ is_Some (position_field obj)).

(** The field a raw line stores, when the parser takes it as a field
    line and the coercion of its value succeeds. *)
Definition field_of (raw : string) : option (string * value) :=
  let line := PyStr.strip raw in
  if String.eqb line "begin_object" || String.eqb line "end_object" then None
  else if negb (String.eqb line "") && PyStr.contains ":" line then
    match field_line line with
    | Ok kv => Some kv
    | Err _ => None
    end
  else None.

(** A line the parser passes over: not a marker, and blank or without
    any colon. *)
Definition ignored (raw : string) : bool :=
  let line := PyStr.strip raw in
  negb (String.eqb line "begin_object") && negb (String.eqb line "end_object")
  && negb (negb (String.eqb line "") && PyStr.contains ":" line).

Definition is_begin (raw : string) : Prop := PyStr.strip raw = "begin_object".
Definition is_end (raw : string) : Prop := PyStr.strip raw = "end_object".

(** A line of the body of a block: a well-formed field line or an
    ignored line. *)
Definition body_line (raw : string) : Prop :=
  is_Some (field_of raw) ∨ ignored raw = true.

(** Adding the fields of some lines to a record, later ones overriding. *)
Definition add_fields (m : record) (body : list string) : record :=
  foldl (λ m raw, match field_of raw with
                  | Some (k, v) => <[k := v]> m
                  | None => m
                  end) m body.

(** The record a body describes. *)
Definition record_of_body (body : list string) : record := add_fields ∅ body.

Definition has_field (body : list string) : bool :=
  existsb (λ raw, bool_decide (is_Some (field_of raw))) body.

(** A block of the input: the opening marker, the body and the closing
    marker. *)
Record block := Block {
  opening : string;
  body : list string;
  closing : string
}.

Definition block_lines (b : block) : list string :=
  opening b :: body b ++ [closing b].

Definition well_formed (b : block) : Prop :=
  is_begin (opening b) ∧ is_end (closing b) ∧ Forall body_line (body b).

(** The blocks that yield a record: those with a field in their body. *)
Definition yields_record (b : block) : bool := has_field (body b).

(** The references appended for a run of blocks whose first dict is
    allocated at [base]: one per block that yields a record. *)
Fixpoint emitted (base : nat) (bs : list block) : list nat :=
  match bs with
  | [] => []
  | b :: bs' => (if has_field (body b) then [base] else []) ++ emitted (S base) bs'
  end.

(** An unterminated block at the end of the input: nothing, or an
    opening marker and a body with no closing marker. *)
Definition open_tail (tail : list string) : Prop :=
  tail = [] ∨ ∃ o rest, tail = o :: rest ∧ is_begin o ∧ Forall body_line rest.

(** Resuming the loop of the parser from a given state. *)
Definition parse_from (st : parser_state) (lines : list string) : result parser_state :=
  for_each parse_line st lines.

(* ===================================================================== *)
(** * Sample inputs *)
(* ===================================================================== *)

Definition sample_record (shape color : string) (size : spec_float) : record :=
  <["instrument_shape" := VStr shape]>
    (<["note_color" := VStr color]>
       (<["size_duration" := VFloat size]> ∅)).

(** 2.5 as a double: what [float] reads from [2.5]. *)
Definition two_and_a_half : spec_float :=
  S754_finite false 5629499534213120 (-51).

Definition origin : value := VTuple [S754_zero false; S754_zero false; S754_zero false].

(** A record with all four fields. *)
Definition full_record (shape color : string) (size : spec_float) : record :=
  <["position" := origin]> (sample_record shape color size).

(** The record lacks one of the fields the score builder reads. *)
Definition lacks_score_field (obj : record) : Prop :=
  obj !! "instrument_shape" = None ∨ obj !! "note_color" = None
  ∨ obj !! "size_duration" = None.

(** The parser's invariant: every dict of the store is typed, and the
    references held by the loop point into the store. *)
Record parser_inv (st : parser_state) : Prop := ParserInv {
  inv_typed : Forall typed (store st);
  inv_current : current_object st < length (store st);
  inv_objects : Forall (λ r, r < length (store st)) (objects st)
}.

(** A [position] or [size_duration] field line whose value is not
    numeric: the line splits at its first colon-space into the key and a
    value that [float] rejects (for [position], in one of the components
    separated by comma-space). *)
Definition bad_numeric (raw : string) : Prop :=
  ∃ key val,
    PyStr.split_once ": " (PyStr.strip raw) = [key; val]
    ∧ ((key = "position"
        ∧ ∃ c, c ∈ PyStr.split ", " val ∧ PyFloat.of_string c = None)
       ∨ (key = "size_duration" ∧ PyFloat.of_string val = None)).

(** A record without [note_color]. *)
Definition drum_without_note : record :=
  <["instrument_shape" := VStr "drum_cube"]>
    (<["size_duration" := VFloat two_and_a_half]> ∅).

Definition two_blocks_second_without_note : list string :=
  ["begin_object"; "instrument_shape: piano_sphere"; "note_color: C4_red";
   "size_duration: 2.5"; "end_object";
   "begin_object"; "instrument_shape: drum_cube"; "size_duration: 2.5";
   "end_object"].

(* ===================================================================== *)
(** * Further notions *)
(* ===================================================================== *)

(** The key a raw line stores under, when it is a well-formed field
    line. *)
Definition key_of (raw : string) : option string := fst <$> field_of raw.

(** Every character of [s] satisfies [p]. *)
Fixpoint all_chars (p : ascii → bool) (s : string) : bool :=
  match s with
  | EmptyString => true
  | String c s' => p c && all_chars p s'
  end.

(** The track a call on the [MIDIFile] addresses. *)
Definition call_track (c : midi_call) : nat :=
  match c with
  | AddTrackName t _ _ | AddTempo t _ _ | AddProgramChange t _ _ _
  | AddNote t _ _ _ _ _ => t
  end.

(** The arguments the script passes as constants: every event at time
    0, tempo 120, channel 0, program 1, velocity 100. *)
Definition fixed_arguments (c : midi_call) : Prop :=
  match c with
  | AddTrackName _ time _ => time = 0%Z
  | AddTempo _ time tempo => time = 0%Z ∧ tempo = 120%Z
  | AddProgramChange _ channel time program =>
      channel = 0 ∧ time = 0%Z ∧ program = 1%Z
  | AddNote _ channel _ time _ volume =>
      channel = 0 ∧ time = 0%Z ∧ volume = 100%Z
  end.

(** The program change that goes with a note: same track and channel. *)
Definition program_change_for (c : midi_call) : midi_call :=
  match c with
  | AddNote t ch _ _ _ _ => AddProgramChange t ch 0 1
  | _ => c
  end.

(** Two records agree on the fields the score builder reads. *)
Definition same_score_fields (obj obj' : record) : Prop :=
  obj !! "instrument_shape" = obj' !! "instrument_shape"
  ∧ obj !! "note_color" = obj' !! "note_color"
  ∧ obj !! "size_duration" = obj' !! "size_duration".


(** The exceptions a spatial generation can end with. *)
Definition scene_failure (e : exn) : Prop :=
  (∃ w, e = ValueError w)
  ∨ (∃ key, e = KeyError key
            ∧ key ∈ ["instrument_shape"; "note_color"; "size_duration"; "position"])
  ∨ e = IndexError
  ∨ e = TypeError.

(** The dicts the emitted references point to are non-empty. *)
Definition emitted_nonempty (st : parser_state) : Prop :=
  Forall (λ r, deref (store st) r ≠ ∅) (objects st).

(** Every note call comes right after the program change made for it. *)
Definition notes_follow_program_changes (l : list midi_call) : Prop :=
  ∀ i c, l !! i = Some c → is_note c →
         ∃ j, i = S j ∧ l !! j = Some (program_change_for c).

(** Three records on two instruments, and the document built for them. *)
Definition three_records : list record :=
  [sample_record "piano_sphere" "C4_red" two_and_a_half;
   sample_record "drum_cube" "G4_blue" two_and_a_half;
   sample_record "piano_cube" "D4_red" two_and_a_half].

Definition three_records_document : midi_file :=
  MidiFile 3
    [AddTrackName 0 0 "piano"; AddTempo 0 0 120;
     AddProgramChange 0 0 0 1; AddNote 0 0 60 0 2 100;
     AddTrackName 1 0 "drum"; AddTempo 1 0 120;
     AddProgramChange 1 0 0 1; AddNote 1 0 67 0 2 100;
     AddProgramChange 0 0 0 1; AddNote 0 0 62 0 2 100].

(** -2.5 as a double. *)
Definition minus_two_and_a_half : spec_float := SFopp two_and_a_half.

(** The exception [int] raises on a float that is not finite. *)
Definition int_failure (d : spec_float) : exn :=
  match d with
  | S754_nan => ValueError NanToInt
  | _ => OverflowError
  end.

(** A block whose [note_color] has no underscore: fit for the score
    builder, not for the scene builder. *)
Definition block_without_colour : list string :=
  ["begin_object"; "instrument_shape: piano_sphere"; "note_color: C4";
   "size_duration: 2.5"; "position: 0, 0, 0"; "end_object"].

(* ===================================================================== *)
(** * Facts about the string primitives *)
(* ===================================================================== *)

Section StringFacts.

Import PyStr.

Lemma strip_prefix_length p s rest :
  strip_prefix p s = Some rest →
  String.length s = (String.length p + String.length rest)%nat.
Proof.
  revert s; induction p as [|a p IH]; intros s; simpl.
  - by intros [= ->].
  - destruct s as [|b s]; [congruence|].
    destruct (Ascii.eqb a b); [|congruence].
    intros H. simpl. by rewrite (IH _ H).
Qed.

Lemma find_length sep s a b :
  find sep s = Some (a, b) →
  String.length s = (String.length a + String.length sep + String.length b)%nat.
Proof.
  revert a b; induction s as [|c s IH]; intros a b; simpl.
  - destruct (strip_prefix sep "") eqn:Hp; [|congruence].
    intros [= <- <-]. pose proof (strip_prefix_length _ _ _ Hp). simpl in *. lia.
  - destruct (strip_prefix sep (String c s)) eqn:Hp.
    + intros [= <- <-]. pose proof (strip_prefix_length _ _ _ Hp). simpl in *. lia.
    + destruct (find sep s) as [[a' b']|] eqn:Hf; [|congruence].
      intros [= <- <-]. simpl. rewrite (IH _ _ eq_refl). lia.
Qed.

(** More fuel than the length of the string changes nothing. *)
Lemma split_fuel_enough sep s n :
  sep ≠ "" → (String.length s ≤ n)%nat →
  split_fuel n sep s = split sep s.
Proof.
  intros Hsep. unfold split.
  remember (String.length s) as k eqn:Hk.
  revert s n Hk. induction k as [k IH] using lt_wf_ind.
  intros s n -> Hn.
  destruct n as [|n].
  - destruct s; simpl in Hn; [done | lia].
  - simpl. destruct (find sep s) as [[a b]|] eqn:Hf.
    + pose proof (find_length _ _ _ _ Hf) as Hl.
      assert (0 < String.length sep)%nat
        by (destruct sep; [done | simpl; lia]).
      destruct (String.length s) as [|m] eqn:Hm; [lia|].
      simpl. rewrite Hf. f_equal.
      rewrite (IH (String.length b)) by lia.
      symmetry. apply (IH (String.length b)); lia.
    + destruct (String.length s); simpl; [done | by rewrite Hf].
Qed.

(** The equation of [str.split]: cut at the first separator and go on
    with what follows it. *)
Lemma split_unfold sep s :
  sep ≠ "" →
  split sep s = match find sep s with
                | Some (a, b) => a :: split sep b
                | None => [s]
                end.
Proof.
  intros Hsep.
  rewrite <- (split_fuel_enough sep s (S (String.length s))) by (done || lia).
  simpl. destruct (find sep s) as [[a b]|] eqn:Hf; [|done].
  f_equal. apply split_fuel_enough; [done|].
  rewrite (find_length _ _ _ _ Hf). lia.
Qed.

Lemma split_head sep s :
  sep ≠ "" → split sep s !! 0%nat = Some (before_first sep s).
Proof.
  intros Hsep. rewrite split_unfold by done. unfold before_first.
  by destruct (find sep s) as [[a b]|].
Qed.

Lemma split_no_sep sep s :
  sep ≠ "" → contains sep s = false → split sep s = [s].
Proof.
  intros Hsep. unfold contains. rewrite split_unfold by done.
  by destruct (find sep s) as [[a b]|].
Qed.

(** A string that carries [c] followed by more text carries [c]. *)
Lemma find_first_char c rest s :
  is_Some (find (String c rest) s) → contains (String c "") s = true.
Proof.
  unfold contains. induction s as [|d s IH]; simpl.
  - by intros [? [=]].
  - destruct (Ascii.eqb c d) eqn:Hcd; [done|].
    destruct (find (String c rest) s) as [[a b]|].
    + intros _. specialize (IH ltac:(eauto)).
      by destruct (find (String c "") s) as [[a' b']|].
    + by intros [? [=]].
Qed.

Lemma eqb_false_iff (a b : string) : String.eqb a b = false ↔ a ≠ b.
Proof.
  destruct (String.eqb_spec a b); split; congruence.
Qed.

End StringFacts.

(* ===================================================================== *)
(** * Facts about loops and results *)
(* ===================================================================== *)

Lemma bind_ok {A B} (a : A) (f : A → result B) : (Ok a ≫= f) = f a.
Proof. reflexivity. Qed.

Lemma for_each_cons {S A} (body : S → A → result S) st x l :
  for_each body st (x :: l) = st' ← body st x; for_each body st' l.
Proof. reflexivity. Qed.

Lemma for_each_app {S A} (body : S → A → result S) st l1 l2 :
  for_each body st (l1 ++ l2) = st' ← for_each body st l1; for_each body st' l2.
Proof.
  revert st; induction l1 as [|x l1 IH]; intros st; simpl; [done|].
  destruct (body st x); simpl; [apply IH | done].
Qed.

(** A loop cannot complete once an iteration is bound to raise; the
    exception it ends with is one the body can raise. *)
Lemma for_each_raises {S A} (body : S → A → result S) (bad : exn → Prop) st l x :
  x ∈ l →
  (∀ s, ∃ e, body s x = Err e) →
  (∀ s y e, body s y = Err e → bad e) →
  ∃ e, for_each body st l = Err e ∧ bad e.
Proof.
  intros Hin Hx Hbad. revert st.
  induction l as [|y l IH]; intros st; [by apply elem_of_nil in Hin|].
  simpl. destruct (body st y) as [st'|e] eqn:Hy; simpl; [|by eauto].
  apply elem_of_cons in Hin as [->|Hin]; [|by apply IH].
  destruct (Hx st) as [e He]. congruence.
Qed.

(** The first iteration that raises decides the outcome of the loop. *)
Lemma for_each_first_error {S A} (body : S → A → result S) st l1 x l2 st1 e :
  for_each body st l1 = Ok st1 →
  body st1 x = Err e →
  for_each body st (l1 ++ x :: l2) = Err e.
Proof.
  intros H1 Hx. rewrite for_each_app, H1. simpl. by rewrite Hx.
Qed.

(* ===================================================================== *)
(** * Note resolver *)
(* ===================================================================== *)

Lemma lookup_list_to_map_assoc {V} (l : list (string * V)) key :
  (list_to_map l : gmap string V) !! key = assoc key l.
Proof.
  induction l as [|[k v] l IH]; simpl; [done|].
  destruct (String.eqb_spec key k) as [->|Hne].
  - by rewrite lookup_insert_eq.
  - by rewrite lookup_insert_ne.
Qed.

Lemma note_to_midi_assoc name :
  note_to_midi name = default 60%Z (assoc name note_table).
Proof. unfold note_to_midi, note_mappings. by rewrite lookup_list_to_map_assoc. Qed.

Ltac split_ascii c :=
  let b0 := fresh in let b1 := fresh in let b2 := fresh in let b3 := fresh in
  let b4 := fresh in let b5 := fresh in let b6 := fresh in let b7 := fresh in
  destruct c as [b0 b1 b2 b3 b4 b5 b6 b7];
  destruct b0, b1, b2, b3, b4, b5, b6, b7.

Lemma note_to_midi_resolved name : note_to_midi name = resolved_pitch name.
Proof.
  rewrite note_to_midi_assoc. unfold resolved_pitch.
  destruct name as [|a [|b [|c r]]].
  - reflexivity.
  - split_ascii a; reflexivity.
  - split_ascii a;
      first [ by (cbn; destruct (PyStr.is_digit b))
            | split_ascii b; vm_compute; reflexivity ].
  - cbn.
    repeat match goal with
           | |- context [Ascii.eqb ?x ?y] => destruct (Ascii.eqb x y); cbn
           end; reflexivity.
Qed.

(** C7. [note_to_midi] is a total function of its argument alone, given
    by a fixed table of the natural notes C4..F5 with their standard MIDI
    numbers (C4 = 60, G4 = 67, ...); a token outside the table, such as
    Z9 or the empty token, resolves to 60. *)
Theorem note_to_midi_table_and_default :
  (note_table.*1) = ["C4"; "D4"; "E4"; "F4"; "G4"; "A4"; "B4"; "C5"; "D5"; "E5"; "F5"]
  ∧ Forall (λ entry, standard_pitch entry.1 = Some entry.2
                      ∧ note_to_midi entry.1 = entry.2) note_table
  ∧ (∀ name, note_to_midi name = resolved_pitch name)
  ∧ (∀ name, name ∉ (note_table.*1) → note_to_midi name = 60%Z)
  ∧ note_to_midi "C4" = 60%Z ∧ note_to_midi "G4" = 67%Z
  ∧ note_to_midi "Z9" = 60%Z ∧ note_to_midi "" = 60%Z.
Proof.
  split; [reflexivity|].
  split; [repeat constructor|].
  split; [apply note_to_midi_resolved|].
  split; [|by vm_compute].
  intros name Hname. unfold note_to_midi, note_mappings.
  by rewrite (not_elem_of_list_to_map_1 _ _ Hname).
Qed.

Lemma note_to_midi_table_and_default_witness :
  ("Z9" ∉ (note_table.*1)) ∧ note_to_midi "Z9" = 60%Z.
Proof.
  assert (H : "Z9" ∉ (note_table.*1)).
  { simpl. rewrite !not_elem_of_cons. repeat split; try discriminate.
    apply not_elem_of_nil. }
  split; [exact H|].
  exact (proj1 (proj2 (proj2 (proj2 note_to_midi_table_and_default))) "Z9" H).
Defined.

(* ===================================================================== *)
(** * Floats and truncation *)
(* ===================================================================== *)

Example two_and_a_half_read : PyFloat.of_string "2.5" = Some two_and_a_half.
Proof. reflexivity. Qed.

Lemma to_int_finite d : is_finite d = true → PyFloat.to_int d = Ok (truncate d).
Proof. by destruct d. Qed.

(** On a non-negative finite float, truncation is the floor. *)
Lemma truncate_floor d q :
  PyFloat.to_Q d = Some q → (0 <= q)%Q → truncate d = Qfloor q.
Proof.
  destruct d as [s| | |s m e]; simpl; try done.
  - by intros [= <-].
  - intros [= <-] Hq.
    assert (s = false) as ->.
    { destruct s; [|done]. exfalso. revert Hq. unfold Qle. simpl.
      destruct e; simpl; lia. }
    simpl. destruct e as [|k|k]; simpl Qfloor.
    + rewrite Z.shiftl_0_r. by rewrite Z.div_1_r.
    + rewrite Z.shiftl_mul_pow2 by lia. by rewrite Z.div_1_r.
    + change (Z.neg k) with (- Z.pos k)%Z.
      rewrite Z.shiftl_opp_r, Z.shiftr_div_pow2 by lia.
      by rewrite Pos2Z.inj_pow.
Qed.

(* ===================================================================== *)
(** * Score builder *)
(* ===================================================================== *)

Lemma split_underscore_head s :
  PyStr.split "_" s !! 0%nat = Some (before_first "_" s).
Proof. by apply split_head. Qed.

(** What one iteration does on a record that has the three fields. *)
Lemma score_step_ready st obj :
  score_ready obj →
  score_step st obj =
    let st1 := ensure_track st (instrument_token obj) in
    match track_details st1 !! instrument_token obj with
    | Some track =>
        Ok (ScoreState (track_details st1) (current_track st1)
              (midi st1 ++ [AddProgramChange track 0 0 1;
                            AddNote track 0 (note_to_midi (note_token obj)) 0
                                    (beats obj) 100]))
    | None => Err (KeyError (instrument_token obj))
    end.
Proof.
  intros (a & b & v & n & Ha & Hb & Hv & Hn).
  unfold score_step, getitem, instrument_token, note_token, beats, list_index.
  rewrite Ha, Hb, Hv. simpl.
  rewrite !split_underscore_head. simpl.
  destruct (track_details (ensure_track st (before_first "_" a))
              !! before_first "_" a); simpl; [|done].
  by rewrite Hn.
Qed.

(** An iteration completes only on such a record. *)
Lemma score_step_ok_ready st obj st' :
  score_step st obj = Ok st' → score_ready obj.
Proof.
  unfold score_step, getitem, score_ready.
  destruct (obj !! "instrument_shape") as [[a| |]|]; try done. simpl.
  destruct (list_index (PyStr.split "_" a) 0); simpl; [|done].
  destruct (track_details _ !! _); simpl; [|done].
  destruct (obj !! "note_color") as [[b| |]|]; try done. simpl.
  destruct (list_index (PyStr.split "_" b) 0); simpl; [|done].
  destruct (obj !! "size_duration") as [v|]; [|done]. simpl.
  destruct (int_value v) as [beat|] eqn:Hbeat; simpl; [|done].
  intros _. by exists a, b, v, beat.
Qed.

Lemma for_each_ok_Forall {S A} (body : S → A → result S) (P : A → Prop) st l st' :
  (∀ s x s', body s x = Ok s' → P x) →
  for_each body st l = Ok st' → Forall P l.
Proof.
  intros Hbody. revert st. induction l as [|x l IH]; intros st; simpl.
  - constructor.
  - destruct (body st x) as [s1|] eqn:Hx; simpl; [|done].
    intros Hrest. constructor; [by eapply Hbody | by eapply IH].
Qed.

Lemma index_of_app_l x l1 l2 t :
  index_of x l1 = Some t → index_of x (l1 ++ l2) = Some t.
Proof.
  revert t; induction l1 as [|y l1 IH]; intros t; simpl; [done|].
  destruct (decide (x = y)); [done|].
  destruct (index_of x l1) as [t'|]; simpl; [|done].
  intros [= <-]. by rewrite (IH t').
Qed.

Lemma index_of_None x l : index_of x l = None ↔ x ∉ l.
Proof.
  induction l as [|y l IH]; simpl.
  - split; [intros _; apply not_elem_of_nil | done].
  - rewrite not_elem_of_cons. destruct (decide (x = y)) as [->|Hne].
    + split; [done | by intros [? _]].
    + destruct (index_of x l); simpl.
      * split; [done|]. intros [_ H]. by apply IH in H.
      * split; [|done]. intros _. split; [done | by apply IH].
Qed.

Lemma index_of_fresh x l : x ∉ l → index_of x (l ++ [x]) = Some (length l).
Proof.
  induction l as [|y l IH]; simpl.
  - intros _. by rewrite decide_True.
  - rewrite not_elem_of_cons. intros [Hne Hl].
    rewrite decide_False by done. by rewrite (IH Hl).
Qed.

Lemma index_of_lookup x l t : index_of x l = Some t → l !! t = Some x.
Proof.
  revert t; induction l as [|y l IH]; intros t; simpl; [done|].
  destruct (decide (x = y)) as [->|].
  - by intros [= <-].
  - destruct (index_of x l) as [t'|]; simpl; [|done].
    intros [= <-]. by apply IH.
Qed.

Lemma index_of_app_fresh x y l :
  x ≠ y → index_of x (l ++ [y]) = index_of x l.
Proof.
  intros Hne. induction l as [|z l IH]; simpl.
  - by rewrite decide_False.
  - destruct (decide (x = z)); [done|]. by rewrite IH.
Qed.

Lemma score_inv_init : score_inv score_init [].
Proof. by split. Qed.

Lemma ensure_track_inv st seen x :
  score_inv st seen →
  score_inv (ensure_track st x) (see seen x)
  ∧ filter is_note (midi (ensure_track st x)) = filter is_note (midi st)
  ∧ filter is_program_change (midi (ensure_track st x))
    = filter is_program_change (midi st).
Proof.
  intros [Hd Hc Hn Ht]. unfold ensure_track, see.
  rewrite Hd. destruct (decide (x ∈ seen)) as [Hin|Hnin].
  - destruct (index_of x seen) eqn:Hi; [done|].
    by apply index_of_None in Hi.
  - apply index_of_None in Hnin as Hi. rewrite Hi. simpl.
    split; [split; simpl|].
    + intros name. destruct (decide (x = name)) as [->|Hne].
      * rewrite lookup_insert_eq, Hc. by rewrite index_of_fresh.
      * rewrite lookup_insert_ne by done.
        rewrite index_of_app_fresh by done. apply Hd.
    + rewrite length_app, Hc. simpl. lia.
    + rewrite filter_app, Hn, imap_app, Hc. simpl. by rewrite Nat.add_0_r.
    + rewrite filter_app, Ht, imap_app, Hc. simpl. by rewrite Nat.add_0_r.
    + by rewrite !filter_app, !app_nil_r.
Qed.

Lemma score_step_inv st seen obj :
  score_inv st seen → score_ready obj →
  ∃ st' track,
    score_step st obj = Ok st'
    ∧ score_inv st' (see seen (instrument_token obj))
    ∧ index_of (instrument_token obj) (see seen (instrument_token obj)) = Some track
    ∧ filter is_note (midi st')
      = filter is_note (midi st)
        ++ [AddNote track 0 (note_to_midi (note_token obj)) 0 (beats obj) 100]
    ∧ filter is_program_change (midi st')
      = filter is_program_change (midi st) ++ [AddProgramChange track 0 0 1].
Proof.
  intros Hinv Hready. rewrite (score_step_ready _ _ Hready). simpl.
  destruct (ensure_track_inv st seen (instrument_token obj) Hinv)
    as ([Hd Hc Hn Ht] & Hnotes & Hprog).
  assert (is_Some (index_of (instrument_token obj)
                            (see seen (instrument_token obj)))) as [track Htr].
  { unfold see. destruct (decide (instrument_token obj ∈ seen)) as [Hin|Hnin].
    - destruct (index_of (instrument_token obj) seen) eqn:Hi; [eauto|].
      by apply index_of_None in Hi.
    - rewrite index_of_fresh by done. eauto. }
  rewrite Hd, Htr. eexists _, track. split; [done|].
  split; [split; simpl; try done|].
  - by rewrite filter_app, Hn, app_nil_r.
  - by rewrite filter_app, Ht, app_nil_r.
  - split; [done|]. simpl. by rewrite !filter_app, Hnotes, Hprog.
Qed.

Lemma see_first_seen seen x l :
  see seen x ++ filter (λ y, y ∉ see seen x) (first_seen l)
  = seen ++ filter (λ y, y ∉ seen) (first_seen (x :: l)).
Proof.
  unfold see. simpl. destruct (decide (x ∈ seen)) as [Hin|Hnin].
  - rewrite filter_cons_False by (intros H; by apply H).
    f_equal. rewrite list_filter_filter. apply list_filter_iff.
    intros y. split; [|tauto]. intros Hy. split; [done|]. by intros ->.
  - rewrite filter_cons_True by done.
    rewrite <- app_assoc. simpl. do 2 f_equal.
    rewrite list_filter_filter. apply list_filter_iff.
    intros y. rewrite not_elem_of_app, not_elem_of_cons. split.
    + intros [? [? _]]. done.
    + intros [? ?]. split_and!; [done|done|apply not_elem_of_nil].
Qed.

Lemma expected_note_prefix seen tracks obj t :
  index_of (instrument_token obj) seen = Some t →
  seen `prefix_of` tracks →
  expected_note tracks obj
  = AddNote t 0 (note_to_midi (note_token obj)) 0 (beats obj) 100.
Proof.
  intros Ht [more ->]. unfold expected_note.
  by rewrite (index_of_app_l _ _ _ _ Ht).
Qed.

(** The whole loop, from any state that satisfies the invariant. *)
Lemma score_loop st seen objs :
  score_inv st seen → Forall score_ready objs →
  let tracks := seen ++ filter (λ y, y ∉ seen) (first_seen (instrument_token <$> objs)) in
  ∃ st',
    for_each score_step st objs = Ok st'
    ∧ score_inv st' tracks
    ∧ filter is_note (midi st')
      = filter is_note (midi st) ++ (expected_note tracks <$> objs)
    ∧ filter is_program_change (midi st')
      = filter is_program_change (midi st)
        ++ ((λ c, match c with
                  | AddNote t ch _ _ _ _ => AddProgramChange t ch 0 1
                  | _ => c
                  end) <$> (expected_note tracks <$> objs)).
Proof.
  intros Hinv Hall. revert st seen Hinv.
  induction Hall as [|obj objs Hobj _ IH]; intros st seen Hinv tracks.
  - exists st. subst tracks. simpl. rewrite !app_nil_r. done.
  - destruct (score_step_inv st seen obj Hinv Hobj)
      as (st1 & t & Hstep & Hinv1 & Ht & Hnotes & Hprog).
    destruct (IH st1 _ Hinv1) as (st' & Hloop & Hinv' & Hnotes' & Hprog').
    assert (Htracks :
      see seen (instrument_token obj)
        ++ filter (λ y, y ∉ see seen (instrument_token obj))
             (first_seen (instrument_token <$> objs)) = tracks)
      by apply see_first_seen.
    rewrite Htracks in *.
    assert (Hnote : expected_note tracks obj
      = AddNote t 0 (note_to_midi (note_token obj)) 0 (beats obj) 100).
    { apply (expected_note_prefix _ _ _ _ Ht). rewrite <- Htracks.
      by apply prefix_app_r. }
    exists st'. rewrite !fmap_cons, Hnote. simpl. rewrite Hstep. simpl.
    split; [done|]. split; [done|].
    by rewrite Hnotes', Hprog', Hnotes, Hprog, <- !app_assoc.
Qed.

Lemma first_seen_elem (l : list string) x : x ∈ first_seen l ↔ x ∈ l.
Proof.
  induction l as [|y l IH]; simpl; [done|].
  rewrite !elem_of_cons, list_elem_of_filter, IH.
  destruct (decide (x = y)); tauto.
Qed.

Lemma first_seen_NoDup (l : list string) : NoDup (first_seen l).
Proof.
  induction l as [|y l IH]; simpl; [constructor|].
  constructor.
  - rewrite list_elem_of_filter. by intros [? _].
  - by apply NoDup_filter.
Qed.

Lemma filter_not_in_nil (l : list string) : filter (λ y, y ∉ []) l = l.
Proof.
  induction l as [|y l IH]; [done|].
  rewrite filter_cons_True by apply not_elem_of_nil. by rewrite IH.
Qed.

(** C5. For a record whose [size_duration] is a finite float [d] with
    [d >= 0], the note the score builder emits has duration [floor d]:
    [int] truncates and does not round.  In particular the values read
    from 2.9, 1.9 and 0.1 give 2, 1 and 0. *)
Theorem duration_is_floor :
  (∀ (st : score_state) (obj : record) (a b : string) (d : spec_float) (q : Q),
     obj !! "instrument_shape" = Some (VStr a) →
     obj !! "note_color" = Some (VStr b) →
     obj !! "size_duration" = Some (VFloat d) →
     PyFloat.to_Q d = Some q → (0 <= q)%Q →
     int_value (VFloat d) = Ok (Qfloor q)
     ∧ ∃ st' track pitch,
         score_step st obj = Ok st'
         ∧ last (midi st') = Some (AddNote track 0 pitch 0 (Qfloor q) 100))
  ∧ (v ← coerce "size_duration" "2.9"; int_value v) = Ok 2%Z
  ∧ (v ← coerce "size_duration" "1.9"; int_value v) = Ok 1%Z
  ∧ (v ← coerce "size_duration" "0.1"; int_value v) = Ok 0%Z.
Proof.
  split; [|by vm_compute].
  intros st obj a b d q Ha Hb Hd Hq Hpos.
  assert (Hfin : is_finite d = true) by (by destruct d).
  pose proof (truncate_floor d q Hq Hpos) as Htr.
  split; [simpl; by rewrite to_int_finite, Htr|].
  assert (Hready : score_ready obj).
  { exists a, b, (VFloat d), (truncate d). split_and!; try done.
    by apply to_int_finite. }
  rewrite (score_step_ready st obj Hready). simpl.
  destruct (track_details (ensure_track st (instrument_token obj))
              !! instrument_token obj) as [track|] eqn:Htrack.
  - eexists _, track, _. split; [done|]. simpl.
    rewrite last_app. simpl. unfold beats. rewrite Hd. simpl.
    by rewrite to_int_finite, Htr.
  - exfalso. revert Htrack. unfold ensure_track.
    destruct (track_details st !! instrument_token obj) eqn:Hl; simpl.
    + by rewrite Hl.
    + by rewrite lookup_insert_eq.
Qed.

Lemma duration_is_floor_witness :
  ∃ st' track pitch,
    score_step score_init (sample_record "piano_sphere" "C4_red" two_and_a_half)
    = Ok st'
    ∧ last (midi st') = Some (AddNote track 0 pitch 0 2 100).
Proof.
  refine (proj2 (proj1 duration_is_floor score_init
            (sample_record "piano_sphere" "C4_red" two_and_a_half)
            "piano_sphere" "C4_red" two_and_a_half
            (5629499534213120 # 2251799813685248)
            _ _ _ _ _)).
  - reflexivity.
  - reflexivity.
  - reflexivity.
  - reflexivity.
  - unfold Qle. simpl. lia.
Defined.

(** C6. The score builder completes exactly on the record sequences
    whose records carry the three fields it reads (the two compound
    tokens as strings, a size with an integer part).  On these, the
    tracks of the document are the distinct instrument tokens in order of
    first occurrence, numbered from 0: track [k] is named after the
    [k]-th such token and given tempo 120, and every record contributes,
    in order, one note on the track of its instrument.  Two piano records
    share one track with two notes. *)
Theorem one_track_per_instrument (objs : list record) :
  ((∃ doc, build_score objs = Ok doc) ↔ Forall score_ready objs)
  ∧ (Forall score_ready objs →
     let tracks := first_seen (instrument_token <$> objs) in
     NoDup tracks
     ∧ (∀ name, name ∈ tracks ↔ name ∈ (instrument_token <$> objs))
     ∧ (∀ obj, obj ∈ objs →
          ∃ k, index_of (instrument_token obj) tracks = Some k
               ∧ tracks !! k = Some (instrument_token obj))
     ∧ ∃ doc,
         build_score objs = Ok doc
         ∧ filter is_track_name (calls doc)
           = imap (λ k name, AddTrackName k 0 name) tracks
         ∧ filter is_tempo (calls doc) = imap (λ k _, AddTempo k 0 120) tracks
         ∧ filter is_note (calls doc) = expected_note tracks <$> objs
         ∧ length (filter is_note (calls doc)) = length objs)
  ∧ build_score [sample_record "piano_sphere" "C4_red" two_and_a_half;
                 sample_record "piano_cube" "G4_blue" two_and_a_half]
    = Ok (MidiFile 2 [AddTrackName 0 0 "piano"; AddTempo 0 0 120;
                      AddProgramChange 0 0 0 1; AddNote 0 0 60 0 2 100;
                      AddProgramChange 0 0 0 1; AddNote 0 0 67 0 2 100]).
Proof.
  assert (Hmain : Forall score_ready objs →
    ∃ st', for_each score_step score_init objs = Ok st'
           ∧ score_inv st' (first_seen (instrument_token <$> objs))
           ∧ filter is_note (midi st')
             = expected_note (first_seen (instrument_token <$> objs)) <$> objs).
  { intros Hall.
    destruct (score_loop score_init [] objs score_inv_init Hall)
      as (st' & Hloop & Hinv & Hnotes & _).
    simpl in Hinv, Hnotes. rewrite filter_not_in_nil in Hinv, Hnotes. eauto. }
  split; [|split; [|by vm_compute]].
  - unfold build_score. split.
    + intros [doc Hdoc].
      destruct (for_each score_step score_init objs) as [st|] eqn:Hrun; [|done].
      eapply for_each_ok_Forall; [|done]. apply score_step_ok_ready.
    + intros Hall. destruct (Hmain Hall) as (st' & -> & _). simpl. eauto.
  - intros Hall tracks.
    split; [apply first_seen_NoDup|].
    split; [intros name; apply first_seen_elem|].
    split.
    { intros obj Hobj.
      destruct (index_of (instrument_token obj) tracks) as [k|] eqn:Hk.
      - exists k. split; [done|]. by apply index_of_lookup.
      - exfalso. apply index_of_None in Hk. apply Hk.
        apply first_seen_elem. by apply list_elem_of_fmap_2. }
    destruct (Hmain Hall) as (st' & Hloop & Hinv & Hnotes).
    fold tracks in Hinv, Hnotes.
    exists (MidiFile (length objs) (midi st')).
    unfold build_score. rewrite Hloop. simpl.
    split; [done|].
    split; [apply Hinv|]. split; [apply Hinv|].
    split; [done|].
    by rewrite Hnotes, length_fmap.
Qed.

Lemma one_track_per_instrument_witness :
  ∃ doc,
    build_score [sample_record "piano_sphere" "C4_red" two_and_a_half;
                 sample_record "drum_cube" "G4_blue" two_and_a_half] = Ok doc
    ∧ filter is_track_name (calls doc)
      = [AddTrackName 0 0 "piano"; AddTrackName 1 0 "drum"].
Proof.
  assert (Hall : Forall score_ready
            [sample_record "piano_sphere" "C4_red" two_and_a_half;
             sample_record "drum_cube" "G4_blue" two_and_a_half]).
  { constructor; [|constructor; [|constructor]].
    - exists "piano_sphere", "C4_red", (VFloat two_and_a_half), 2%Z.
      split_and!; reflexivity.
    - exists "drum_cube", "G4_blue", (VFloat two_and_a_half), 2%Z.
      split_and!; reflexivity. }
  destruct (proj1 (proj2 (one_track_per_instrument _)) Hall)
    as (_ & _ & _ & doc & Hdoc & Hnames & _).
  exists doc. split; [exact Hdoc|]. rewrite Hnames. reflexivity.
Defined.

(* ===================================================================== *)
(** * Scene builder *)
(* ===================================================================== *)

Lemma second_token_inv obj key tok :
  second_token obj key = Some tok →
  ∃ s, obj !! key = Some (VStr s) ∧ PyStr.split "_" s !! 1%nat = Some tok.
Proof.
  unfold second_token. destruct (obj !! key) as [[s| |]|]; try done. eauto.
Qed.

(** What one iteration does on a record the builder can process. *)
Lemma scene_step_ready actors obj :
  scene_ready obj →
  scene_step actors obj = Ok (match expected_solid obj with
                              | Some s => actors ++ [s]
                              | None => actors
                              end).
Proof.
  intros (shape & color & Hshape & Hcolor & [size Hsize] & Hrec).
  unfold expected_solid. rewrite Hshape. simpl.
  apply second_token_inv in Hshape as (s1 & Hs1 & Hp1).
  pose proof Hcolor as Hcolor'.
  apply second_token_inv in Hcolor' as (s2 & Hs2 & Hp2).
  unfold scene_step, getitem, list_index. rewrite Hs1, Hs2, Hsize. simpl.
  rewrite Hp1, Hp2. simpl.
  unfold recognized in *.
  destruct (String.eqb shape "sphere") eqn:Hsph;
    [|destruct (String.eqb shape "cube") eqn:Hcub]; simpl; [| |done].
  all: destruct (Hrec eq_refl) as [[f Hf] [pos Hpos]];
    rewrite Hcolor, Hf, Hpos; simpl;
    unfold float_field in Hf; rewrite Hsize in Hf;
    destruct size as [|f'|]; try done; injection Hf as ->; simpl;
    unfold position_field in Hpos;
    destruct (obj !! "position") as [[| |[|x [|y [|z [|]]]]]|]; try done;
    by injection Hpos as <-.
Qed.

(** An iteration completes only on such a record. *)
Lemma scene_step_ok_ready actors obj actors' :
  scene_step actors obj = Ok actors' → scene_ready obj.
Proof.
  unfold scene_step, getitem, list_index, scene_ready, second_token.
  destruct (obj !! "instrument_shape") as [[s1| |]|]; try done. simpl.
  destruct (PyStr.split "_" s1 !! 1%nat) as [shape|]; simpl; [|done].
  destruct (obj !! "note_color") as [[s2| |]|]; try done. simpl.
  destruct (PyStr.split "_" s2 !! 1%nat) as [color|]; simpl; [|done].
  destruct (obj !! "size_duration") as [size|] eqn:Hsize; [|done]. simpl.
  intros Hstep. exists shape, color. split_and!; eauto.
  unfold recognized, float_field, position_field. rewrite Hsize.
  destruct (String.eqb shape "sphere");
    [|destruct (String.eqb shape "cube"); [|done]].
  all: intros _; destruct size as [|f|]; try done; simpl in Hstep;
    destruct (obj !! "position") as [[| |[|x [|y [|z [|]]]]]|]; try done;
    eauto.
Qed.

Lemma scene_loop actors objs :
  Forall scene_ready objs →
  for_each scene_step actors objs = Ok (actors ++ omap expected_solid objs).
Proof.
  intros Hall. revert actors.
  induction Hall as [|obj objs Hobj _ IH]; intros actors; simpl.
  - by rewrite app_nil_r.
  - rewrite (scene_step_ready _ _ Hobj). simpl.
    destruct (expected_solid obj) as [s|]; rewrite IH; [|done].
    by rewrite <- app_assoc.
Qed.

(** An [instrument_shape] without underscore stops the iteration. *)
Lemma scene_step_no_underscore actors obj s :
  obj !! "instrument_shape" = Some (VStr s) →
  PyStr.contains "_" s = false →
  scene_step actors obj = Err IndexError.
Proof.
  intros Hs Hno. unfold scene_step, getitem. rewrite Hs. simpl.
  by rewrite split_no_sep.
Qed.

Lemma for_each_cannot_complete {S A} (body : S → A → result S) st l1 x l2 :
  (∀ s, ∃ e, body s x = Err e) →
  ∃ e, for_each body st (l1 ++ x :: l2) = Err e.
Proof.
  intros Hx.
  destruct (for_each_raises body (λ _, True) st (l1 ++ x :: l2) x)
    as (e & He & _); eauto.
  apply elem_of_app. right. apply elem_of_cons. by left.
Qed.

(** C8 (as amended). The scene builder completes exactly on the record
    sequences whose records have a second component in both compound
    tokens and carry a size (and, for a sphere or a cube, a numeric size
    and a position of three numbers).  On these it returns, in record
    order, one solid per record whose shape token is [sphere] (radius =
    size) or [cube] (three edges = size) and nothing for the others; a
    record with another shape token is passed over whatever its colour
    name, size and position are. *)
Theorem scene_solids_in_record_order (objs : list record) :
  ((∃ solids, build_scene objs = Ok solids) ↔ Forall scene_ready objs)
  ∧ (Forall scene_ready objs →
     build_scene objs = Ok (omap expected_solid objs)
     ∧ ∀ obj shape,
         obj ∈ objs → second_token obj "instrument_shape" = Some shape →
         if recognized shape then
           ∃ size color pos,
             float_field obj "size_duration" = Some size
             ∧ second_token obj "note_color" = Some color
             ∧ position_field obj = Some pos
             ∧ expected_solid obj
               = Some (Solid (if String.eqb shape "sphere" then Sphere size
                              else Cube size size size) color pos)
         else expected_solid obj = None)
  ∧ (∀ actors obj shape color,
       second_token obj "instrument_shape" = Some shape →
       recognized shape = false →
       second_token obj "note_color" = Some color →
       is_Some (obj !! "size_duration") →
       scene_step actors obj = Ok actors).
Proof.
  split_and!.
  - unfold build_scene. split.
    + intros [solids Hrun].
      eapply for_each_ok_Forall; [|done]. apply scene_step_ok_ready.
    + intros Hall. rewrite (scene_loop [] objs Hall). eauto.
  - intros Hall. split; [apply (scene_loop [] objs Hall)|].
    intros obj shape Hin Hshape.
    rewrite Forall_forall in Hall.
    destruct (Hall obj Hin) as (shape' & color & Hshape' & Hcolor & Hsize & Hrec).
    assert (shape' = shape) as -> by congruence.
    unfold expected_solid. rewrite Hshape. simpl.
    destruct (recognized shape) eqn:Hr; [|done].
    destruct (Hrec eq_refl) as [[size Hf] [pos Hpos]].
    exists size, color, pos. by rewrite Hcolor, Hf, Hpos.
  - intros actors obj shape color Hshape Hr Hcolor Hsize.
    assert (Hready : scene_ready obj).
    { exists shape, color. split_and!; try done. by rewrite Hr. }
    rewrite (scene_step_ready actors obj Hready).
    unfold expected_solid. rewrite Hshape. simpl. by rewrite Hr.
Qed.

Lemma scene_solids_in_record_order_witness :
  build_scene [full_record "piano_sphere" "C4_red" two_and_a_half;
               full_record "piano_pyramid" "D4_green" two_and_a_half;
               full_record "drum_cube" "G4_blue" two_and_a_half]
  = Ok [Solid (Sphere two_and_a_half) "red"
              (S754_zero false, S754_zero false, S754_zero false);
        Solid (Cube two_and_a_half two_and_a_half two_and_a_half) "blue"
              (S754_zero false, S754_zero false, S754_zero false)].
Proof.
  assert (Hall : Forall scene_ready
            [full_record "piano_sphere" "C4_red" two_and_a_half;
             full_record "piano_pyramid" "D4_green" two_and_a_half;
             full_record "drum_cube" "G4_blue" two_and_a_half]).
  { repeat constructor.
    - exists "sphere", "red". vm_compute. repeat split; eauto.
    - exists "pyramid", "green". vm_compute. repeat split; eauto; discriminate.
    - exists "cube", "blue". vm_compute. repeat split; eauto. }
  rewrite (proj1 (proj1 (proj2 (scene_solids_in_record_order _)) Hall)).
  reflexivity.
Defined.

(** C8, counterexample.  A record with shape token [pyramid] whose
    [note_color] has no underscore is not passed over: the colour token
    is read before the shape is tested and the builder raises. *)
Lemma unrecognized_shape_not_skipped :
  second_token (full_record "piano_pyramid" "C4" two_and_a_half)
               "instrument_shape" = Some "pyramid"
  ∧ recognized "pyramid" = false
  ∧ scene_step [] (full_record "piano_pyramid" "C4" two_and_a_half) ≠ Ok []
  ∧ build_scene [full_record "piano_pyramid" "C4" two_and_a_half]
    = Err IndexError.
Proof. by vm_compute. Qed.

(** C4 (as amended). A record whose [instrument_shape] has no
    underscore has no second component, and the scene builder raises an
    index error when it reaches the record: the record is not passed
    over, and no scene is produced. *)
Theorem shape_without_underscore_raises (obj : record) (s : string) :
  obj !! "instrument_shape" = Some (VStr s) →
  PyStr.contains "_" s = false →
  second_token obj "instrument_shape" = None
  ∧ (∀ actors, scene_step actors obj = Err IndexError)
  ∧ ∀ pre post,
      (∃ e, build_scene (pre ++ obj :: post) = Err e)
      ∧ ∀ actors, build_scene pre = Ok actors →
                  build_scene (pre ++ obj :: post) = Err IndexError.
Proof.
  intros Hs Hno.
  assert (Hstep : ∀ actors, scene_step actors obj = Err IndexError)
    by (intros; by eapply scene_step_no_underscore).
  split; [|split; [done|]].
  - unfold second_token. rewrite Hs. by rewrite split_no_sep.
  - intros pre post. split.
    + apply for_each_cannot_complete. eauto.
    + intros actors Hpre. by eapply for_each_first_error.
Qed.

Lemma shape_without_underscore_raises_witness :
  build_scene [full_record "drum_cube" "G4_blue" two_and_a_half;
               full_record "piano" "C4_red" two_and_a_half]
  = Err IndexError.
Proof.
  refine (proj2 (proj2 (proj2
            (shape_without_underscore_raises
               (full_record "piano" "C4_red" two_and_a_half) "piano" _ _))
            [full_record "drum_cube" "G4_blue" two_and_a_half] []) _ _).
  - reflexivity.
  - reflexivity.
  - reflexivity.
Defined.

(** C4, counterexample.  The record is well formed in every other
    respect, yet the builder does not pass it over: it raises. *)
Lemma shape_without_underscore_not_skipped :
  full_record "piano" "C4_red" two_and_a_half !! "instrument_shape"
  = Some (VStr "piano")
  ∧ PyStr.contains "_" "piano" = false
  ∧ scene_step [] (full_record "piano" "C4_red" two_and_a_half) ≠ Ok []
  ∧ build_scene [full_record "piano" "C4_red" two_and_a_half] = Err IndexError.
Proof. by vm_compute. Qed.

(* ===================================================================== *)
(** * Format parser: one line *)
(* ===================================================================== *)

Lemma parse_line_begin st raw :
  is_begin raw →
  parse_line st raw
  = Ok (ParserState (store st ++ [∅]) (objects st) (length (store st))).
Proof. unfold is_begin, parse_line. by intros ->. Qed.

Lemma parse_line_end st raw :
  is_end raw →
  parse_line st raw
  = Ok (if truthy (deref (store st) (current_object st))
        then ParserState (store st) (objects st ++ [current_object st])
                         (current_object st)
        else st).
Proof.
  unfold is_end, parse_line. intros ->. simpl.
  by destruct (truthy _).
Qed.

Lemma parse_line_field st raw key v :
  field_of raw = Some (key, v) → parse_line st raw = Ok (setitem st key v).
Proof.
  unfold field_of, parse_line.
  destruct (String.eqb (PyStr.strip raw) "begin_object"); [done|].
  destruct (String.eqb (PyStr.strip raw) "end_object"); [done|]. simpl.
  destruct (negb _ && _); [|done].
  destruct (field_line (PyStr.strip raw)) as [[k v']|]; [|done].
  by intros [= -> ->].
Qed.

Lemma parse_line_ignored st raw :
  ignored raw = true → parse_line st raw = Ok st.
Proof.
  unfold ignored, parse_line.
  destruct (String.eqb (PyStr.strip raw) "begin_object"); [done|].
  destruct (String.eqb (PyStr.strip raw) "end_object"); [done|]. simpl.
  by destruct (negb _ && _).
Qed.

Lemma float_error s e : PyFloat.float s = Err e → ∃ w, e = ValueError w.
Proof. unfold PyFloat.float. destruct (PyFloat.of_string s); [done|]. intros [= <-]. eauto. Qed.

Lemma map_float_error l e :
  map_result PyFloat.float l = Err e → ∃ w, e = ValueError w.
Proof.
  induction l as [|s l IH]; simpl; [done|].
  destruct (PyFloat.float s) eqn:Hs; simpl.
  - destruct (map_result PyFloat.float l); simpl; [done|].
    intros [= <-]. by apply IH.
  - intros [= <-]. by eapply float_error.
Qed.

Lemma map_float_bad l c :
  c ∈ l → PyFloat.of_string c = None →
  ∃ w, map_result PyFloat.float l = Err (ValueError w).
Proof.
  intros Hin Hc. induction l as [|s l IH]; [by apply elem_of_nil in Hin|].
  simpl. destruct (PyFloat.float s) as [f|e] eqn:Hs; simpl.
  - apply elem_of_cons in Hin as [->|Hin].
    + unfold PyFloat.float in Hs. by rewrite Hc in Hs.
    + destruct (IH Hin) as [w ->]. simpl. eauto.
  - apply float_error in Hs as [w ->]. eauto.
Qed.

Lemma coerce_error key val e : coerce key val = Err e → ∃ w, e = ValueError w.
Proof.
  unfold coerce.
  destruct (String.eqb key "position").
  - destruct (map_result PyFloat.float _) eqn:Hm; simpl; [done|].
    intros [= <-]. by eapply map_float_error.
  - destruct (String.eqb key "size_duration"); [|done].
    destruct (PyFloat.float val) eqn:Hf; simpl; [done|].
    intros [= <-]. by eapply float_error.
Qed.

Lemma field_line_error line e : field_line line = Err e → ∃ w, e = ValueError w.
Proof.
  unfold field_line.
  destruct (PyStr.split_once ": " line) as [|key [|val [|]]]; try (intros [= <-]; eauto).
  destruct (coerce key val) eqn:Hc; simpl; [done|].
  intros [= <-]. by eapply coerce_error.
Qed.

(** The parser raises nothing but [ValueError]. *)
Lemma parse_line_error st raw e :
  parse_line st raw = Err e → ∃ w, e = ValueError w.
Proof.
  unfold parse_line.
  destruct (String.eqb (PyStr.strip raw) "begin_object"); [done|].
  destruct (String.eqb (PyStr.strip raw) "end_object"); [by destruct (truthy _)|].
  destruct (negb _ && _); [|done].
  destruct (field_line (PyStr.strip raw)) as [[k v]|e'] eqn:Hf; simpl; [done|].
  intros [= <-]. by eapply field_line_error.
Qed.

Lemma split_once_pair sep line key val :
  PyStr.split_once sep line = [key; val] → PyStr.find sep line = Some (key, val).
Proof.
  unfold PyStr.split_once. destruct (PyStr.find sep line) as [[a b]|]; [|done].
  by intros [= -> ->].
Qed.

(** A line that splits at a colon-space is taken as a field line. *)
Lemma splits_is_field_line line key val :
  PyStr.split_once ": " line = [key; val] →
  String.eqb line "begin_object" = false
  ∧ String.eqb line "end_object" = false
  ∧ negb (String.eqb line "") && PyStr.contains ":" line = true.
Proof.
  intros Hsplit.
  assert (Hc : PyStr.contains ":" line = true).
  { apply (find_first_char _ " "). apply split_once_pair in Hsplit. rewrite Hsplit. eauto. }
  split_and!.
  - destruct (String.eqb_spec line "begin_object") as [->|]; [done|done].
  - destruct (String.eqb_spec line "end_object") as [->|]; [done|done].
  - rewrite Hc. by destruct (String.eqb_spec line "") as [->|].
Qed.

Lemma bad_numeric_raises st raw :
  bad_numeric raw → ∃ w, parse_line st raw = Err (ValueError w).
Proof.
  intros (key & val & Hsplit & Hbad).
  destruct (splits_is_field_line _ _ _ Hsplit) as (Hb & He & Hf).
  unfold parse_line. rewrite Hb, He, Hf.
  unfold field_line. rewrite Hsplit. unfold coerce.
  destruct Hbad as [[-> (c & Hin & Hc)] | [-> Hv]]; simpl.
  - destruct (map_float_bad _ _ Hin Hc) as [w ->]. simpl. eauto.
  - unfold PyFloat.float. rewrite Hv. simpl. eauto.
Qed.

(** A line with a colon but no colon-space cannot be unpacked. *)
Lemma bare_colon_raises st raw :
  ¬ is_begin raw → ¬ is_end raw →
  PyStr.contains ":" (PyStr.strip raw) = true →
  PyStr.contains ": " (PyStr.strip raw) = false →
  parse_line st raw = Err (ValueError NotEnoughValues).
Proof.
  unfold is_begin, is_end, parse_line. intros Hb He Hc Hcs.
  apply eqb_false_iff in Hb, He. rewrite Hb, He, Hc.
  assert (String.eqb (PyStr.strip raw) "" = false) as ->.
  { apply eqb_false_iff. intros Heq. by rewrite Heq in Hc. }
  simpl. unfold field_line, PyStr.split_once.
  unfold PyStr.contains in Hcs.
  by destruct (PyStr.find ": " (PyStr.strip raw)) as [[a b]|].
Qed.

(* ===================================================================== *)
(** * Format parser: the loop *)
(* ===================================================================== *)

(** The four things an iteration that completes can have done. *)
Lemma parse_line_cases st raw st' :
  parse_line st raw = Ok st' →
  (is_begin raw
   ∧ st' = ParserState (store st ++ [∅]) (objects st) (length (store st)))
  ∨ (¬ is_begin raw ∧ is_end raw
     ∧ st' = if truthy (deref (store st) (current_object st))
             then ParserState (store st) (objects st ++ [current_object st])
                              (current_object st)
             else st)
  ∨ (¬ is_begin raw ∧ ∃ key v, field_of raw = Some (key, v) ∧ st' = setitem st key v)
  ∨ (¬ is_begin raw ∧ ignored raw = true ∧ st' = st).
Proof.
  unfold parse_line, is_begin, is_end, field_of, ignored.
  destruct (String.eqb_spec (PyStr.strip raw) "begin_object") as [Hb|Hb].
  { intros [= <-]. by left. }
  destruct (String.eqb_spec (PyStr.strip raw) "end_object") as [He|He].
  { intros H. right; left. split_and!; try done.
    destruct (truthy _); by injection H as <-. }
  simpl. destruct (negb _ && _).
  - destruct (field_line (PyStr.strip raw)) as [[k v]|]; simpl; [|done].
    intros [= <-]. right; right; left. eauto.
  - intros [= <-]. by do 3 right.
Qed.

Lemma ignored_no_field raw : ignored raw = true → field_of raw = None.
Proof.
  unfold ignored, field_of.
  destruct (String.eqb (PyStr.strip raw) "begin_object"); [done|].
  destruct (String.eqb (PyStr.strip raw) "end_object"); [done|]. simpl.
  by destruct (negb _ && _).
Qed.

Lemma coerce_typed key val v : coerce key val = Ok v → field_typed key v.
Proof.
  unfold coerce.
  destruct (String.eqb_spec key "position") as [->|Hp].
  { destruct (map_result PyFloat.float _); simpl; [|done]. by intros [= <-]. }
  destruct (String.eqb_spec key "size_duration") as [->|Hs].
  { destruct (PyFloat.float val); simpl; [|done]. by intros [= <-]. }
  by intros [= <-].
Qed.

Lemma field_of_typed raw key v : field_of raw = Some (key, v) → field_typed key v.
Proof.
  unfold field_of. destruct (_ || _); [done|]. destruct (negb _ && _); [|done].
  unfold field_line.
  destruct (PyStr.split_once ": " (PyStr.strip raw)) as [|k [|val [|]]]; try done.
  destruct (coerce k val) as [v'|] eqn:Hc; simpl; [|done].
  intros [= <- <-]. by eapply coerce_typed.
Qed.

Lemma typed_empty : typed ∅.
Proof. intros key v. by rewrite lookup_empty. Qed.

Lemma typed_insert obj key v : typed obj → field_typed key v → typed (<[key := v]> obj).
Proof.
  intros Hobj Hv key' v'. destruct (decide (key = key')) as [->|Hne].
  - rewrite lookup_insert_eq. by intros [= <-].
  - rewrite lookup_insert_ne by done. apply Hobj.
Qed.

Lemma parser_inv_init : parser_inv parser_init.
Proof.
  split; simpl; [|lia|constructor].
  constructor; [apply typed_empty | constructor].
Qed.

Lemma parse_line_inv st raw st' :
  parser_inv st → parse_line st raw = Ok st' → parser_inv st'.
Proof.
  intros [Ht Hc Ho] Hstep.
  destruct (parse_line_cases _ _ _ Hstep)
    as [[_ ->] | [(_ & _ & ->) | [(_ & key & v & Hf & ->) | (_ & _ & ->)]]].
  - split; simpl.
    + apply Forall_app. split; [done|]. constructor; [apply typed_empty | constructor].
    + rewrite length_app. simpl. lia.
    + eapply Forall_impl; [done|]. intros r Hr. simpl in *. rewrite length_app. simpl. lia.
  - destruct (truthy _); [|done]. split; simpl; try done.
    apply Forall_app. split; [done|]. by constructor.
  - split; simpl.
    + apply Forall_alter; [done|]. intros obj _ Hobj.
      apply typed_insert; [done|]. by eapply field_of_typed.
    + by rewrite length_alter.
    + eapply Forall_impl; [done|]. intros r Hr. simpl in *. by rewrite length_alter.
  - done.
Qed.

Lemma parse_from_inv st lines st' :
  parser_inv st → parse_from st lines = Ok st' → parser_inv st'.
Proof.
  unfold parse_from. revert st. induction lines as [|raw lines IH]; intros st Hinv; simpl.
  - by intros [= <-].
  - destruct (parse_line st raw) as [st1|] eqn:Hstep; simpl; [|done].
    apply IH. by eapply parse_line_inv.
Qed.

(** Cells below the accumulator are out of reach of the loop: once the
    accumulator sits at or above [n], no later line changes a dict at a
    reference below [n], and the result list only grows. *)
Lemma parse_from_frame st lines st' n :
  parse_from st lines = Ok st' →
  n ≤ current_object st → current_object st < length (store st) →
  (∀ r, r < n → store st' !! r = store st !! r)
  ∧ objects st `prefix_of` objects st'.
Proof.
  unfold parse_from. revert st.
  induction lines as [|raw lines IH]; intros st; simpl.
  - by intros [= <-].
  - destruct (parse_line st raw) as [st1|] eqn:Hstep; simpl; [|done].
    intros Hrest Hn Hc.
    destruct (parse_line_cases _ _ _ Hstep)
      as [[_ ->] | [(_ & _ & ->) | [(_ & key & v & Hf & ->) | (_ & _ & ->)]]].
    + destruct (IH _ Hrest) as [Hst Hpre]; simpl.
      { lia. } { rewrite length_app. simpl. lia. }
      split; [|done]. intros r Hr. rewrite (Hst r Hr). simpl.
      apply lookup_app_l. lia.
    + destruct (truthy _); [|by apply IH].
      destruct (IH _ Hrest) as [Hst Hpre]; simpl; [done|done|].
      split; [done|]. simpl in Hpre. etrans; [|done]. by apply prefix_app_r.
    + destruct (IH _ Hrest) as [Hst Hpre]; simpl.
      { done. } { by rewrite length_alter. }
      split; [|done]. intros r Hr. rewrite (Hst r Hr). simpl.
      apply list_lookup_alter_ne. lia.
    + by apply IH.
Qed.

Lemma truthy_iff obj : truthy obj = true ↔ obj ≠ ∅.
Proof.
  unfold truthy. rewrite negb_true_iff, Nat.eqb_neq.
  apply map_size_non_empty_iff.
Qed.

Lemma truthy_insert obj key (v : value) : truthy (<[key := v]> obj) = true.
Proof. apply truthy_iff, insert_non_empty. Qed.

Lemma truthy_add_fields obj lines :
  truthy (add_fields obj lines) = truthy obj || has_field lines.
Proof.
  unfold add_fields. revert obj.
  induction lines as [|raw lines IH]; intros obj; simpl.
  - by rewrite orb_false_r.
  - rewrite IH. destruct (field_of raw) as [[k v]|] eqn:Hf.
    + rewrite truthy_insert. rewrite bool_decide_eq_true_2 by eauto.
      simpl. by rewrite orb_true_r.
    + rewrite bool_decide_eq_false_2; [done|]. by intros [? [=]].
Qed.

Lemma deref_last (h : list record) obj : deref (h ++ [obj]) (length h) = obj.
Proof. unfold deref. by rewrite list_lookup_middle. Qed.

(** The body of a block fills the dict allocated last. *)
Lemma body_run st lines h obj :
  store st = h ++ [obj] → current_object st = length h →
  Forall body_line lines →
  parse_from st lines
  = Ok (ParserState (h ++ [add_fields obj lines]) (objects st) (length h)).
Proof.
  unfold parse_from. intros Hst Hc Hall. revert st obj Hst Hc.
  induction Hall as [|raw lines Hraw _ IH]; intros st obj Hst Hc; simpl.
  - destruct st; simpl in *. by subst.
  - destruct Hraw as [[[key v] Hf] | Hig].
    + rewrite (parse_line_field _ _ _ _ Hf). simpl.
      rewrite (IH _ (<[key := v]> obj)); simpl.
      * unfold add_fields at 2. simpl. by rewrite Hf.
      * rewrite Hst, Hc. rewrite alter_app_r_alt by lia.
        by rewrite Nat.sub_diag.
      * done.
    + rewrite (parse_line_ignored _ _ Hig). simpl.
      rewrite (IH _ obj Hst Hc).
      unfold add_fields at 2. simpl. by rewrite (ignored_no_field _ Hig).
Qed.

(** A well-formed block allocates one dict, fills it, and appends its
    reference when the block has a field. *)
Lemma block_run st b :
  well_formed b →
  parse_from st (block_lines b)
  = Ok (ParserState (store st ++ [record_of_body (body b)])
          (objects st ++ (if yields_record b then [length (store st)] else []))
          (length (store st))).
Proof.
  intros (Hb & He & Hbody). unfold parse_from, block_lines.
  rewrite for_each_cons, (parse_line_begin _ _ Hb), bind_ok, for_each_app.
  pose proof (body_run (ParserState (store st ++ [∅]) (objects st) (length (store st)))
                (body b) (store st) ∅ eq_refl eq_refl Hbody) as Hrun.
  unfold parse_from in Hrun. rewrite Hrun, bind_ok.
  rewrite for_each_cons, (parse_line_end _ _ He), bind_ok. simpl.
  rewrite deref_last. fold (record_of_body (body b)).
  unfold record_of_body at 1. rewrite truthy_add_fields. simpl.
  unfold yields_record.
  destruct (has_field (body b)); [done|]. by rewrite app_nil_r.
Qed.

Lemma blocks_run st bs :
  Forall well_formed bs →
  ∃ cur,
    parse_from st (concat (block_lines <$> bs))
    = Ok (ParserState (store st ++ ((record_of_body ∘ body) <$> bs))
            (objects st ++ emitted (length (store st)) bs) cur).
Proof.
  intros Hall. revert st.
  induction Hall as [|b bs Hb _ IH]; intros st.
  - exists (current_object st). destruct st; simpl. by rewrite !app_nil_r.
  - unfold parse_from in *. rewrite fmap_cons.
    change (concat (block_lines b :: (block_lines <$> bs)))
      with (block_lines b ++ concat (block_lines <$> bs)).
    rewrite for_each_app.
    pose proof (block_run st b Hb) as Hrun. unfold parse_from in Hrun.
    rewrite Hrun, bind_ok.
    destruct (IH (ParserState (store st ++ [record_of_body (body b)])
                    (objects st ++ (if yields_record b then [length (store st)] else []))
                    (length (store st)))) as [cur ->].
    exists cur. simpl. rewrite length_app. simpl.
    rewrite <- !app_assoc. simpl. unfold yields_record.
    by rewrite Nat.add_1_r.
Qed.

(** An unterminated block allocates dicts and appends nothing. *)
Lemma tail_run st tail :
  open_tail tail →
  ∃ extra cur,
    parse_from st tail = Ok (ParserState (store st ++ extra) (objects st) cur).
Proof.
  intros [-> | (o & rest & -> & Ho & Hrest)].
  - exists [], (current_object st). destruct st; simpl. by rewrite app_nil_r.
  - unfold parse_from.
    rewrite for_each_cons, (parse_line_begin _ _ Ho), bind_ok.
    pose proof (body_run (ParserState (store st ++ [∅]) (objects st) (length (store st)))
                  rest (store st) ∅ eq_refl eq_refl Hrest) as Hrun.
    unfold parse_from in Hrun. rewrite Hrun. eauto.
Qed.

Lemma emitted_lower base bs r : r ∈ emitted base bs → base ≤ r.
Proof.
  revert base. induction bs as [|b bs IH]; intros base; simpl.
  - by intros ?%elem_of_nil.
  - rewrite elem_of_app. intros [Hr | Hr].
    + destruct (has_field (body b)); [|by apply elem_of_nil in Hr].
      apply list_elem_of_singleton in Hr. lia.
    + apply IH in Hr. lia.
Qed.

Lemma emitted_NoDup base bs : NoDup (emitted base bs).
Proof.
  revert base. induction bs as [|b bs IH]; intros base; simpl; [constructor|].
  destruct (has_field (body b)); simpl; [|done].
  constructor; [|done]. intros Hr. apply emitted_lower in Hr. lia.
Qed.

(** Reading the emitted references gives the records of the blocks
    that have a field, in order. *)
Lemma emitted_records (f : block → record) (pre post : list record) bs :
  deref (pre ++ (f <$> bs) ++ post) <$> emitted (length pre) bs
  = f <$> filter yields_record bs.
Proof.
  revert pre. induction bs as [|b bs IH]; intros pre; [done|].
  rewrite fmap_cons.
  change (emitted (length pre) (b :: bs))
    with ((if has_field (body b) then [length pre] else [])
            ++ emitted (S (length pre)) bs).
  rewrite fmap_app.
  assert (Hcell : pre ++ (f b :: (f <$> bs)) ++ post
                  = (pre ++ [f b]) ++ (f <$> bs) ++ post)
    by (by rewrite <- app_assoc).
  assert (Hlen : S (length pre) = length (pre ++ [f b]))
    by (rewrite length_app; simpl; lia).
  rewrite Hcell, Hlen, IH, <- Hcell. rewrite filter_cons.
  destruct (has_field (body b)) eqn:Hb.
  - rewrite decide_True by (unfold yields_record; by rewrite Hb).
    rewrite fmap_cons. simpl. f_equal.
    unfold deref. by rewrite list_lookup_middle.
  - rewrite decide_False by (unfold yields_record; rewrite Hb; intros []).
    done.
Qed.

Lemma filter_all {A} (P : A → Prop) `{∀ x, Decision (P x)} (l : list A) :
  Forall P l → filter P l = l.
Proof.
  induction 1 as [|x l Hx _ IH]; [done|].
  by rewrite filter_cons_True, IH.
Qed.

(** C2. An input made of well-formed blocks, possibly followed by an
    unterminated block, parses without error; the records returned are
    those of the blocks that have at least one field, in the order of the
    blocks, each held in a dict object of its own.  So [N] blocks with a
    field each give exactly [N] records, a block with no field gives
    none, and neither does a trailing block that is never closed. *)
Theorem one_record_per_block (bs : list block) (tail : list string) :
  Forall well_formed bs → open_tail tail →
  ∃ res,
    load_objects_from_mvo (concat (block_lines <$> bs) ++ tail) = Ok res
    ∧ records_of res = (record_of_body ∘ body) <$> filter yields_record bs
    ∧ NoDup (snd res)
    ∧ (Forall yields_record bs →
         records_of res = (record_of_body ∘ body) <$> bs
         ∧ length (records_of res) = length bs).
Proof.
  intros Hbs Htail.
  destruct (blocks_run parser_init bs Hbs) as [cur Hrun].
  destruct (tail_run (ParserState (store parser_init ++ ((record_of_body ∘ body) <$> bs))
                        (objects parser_init ++ emitted (length (store parser_init)) bs)
                        cur) tail Htail) as (extra & cur' & Htl).
  unfold parse_from in Hrun, Htl. simpl in Hrun, Htl.
  exists ((∅ :: ((record_of_body ∘ body) <$> bs)) ++ extra, emitted 1 bs).
  assert (Hrec :
    records_of ((∅ :: ((record_of_body ∘ body) <$> bs)) ++ extra, emitted 1 bs)
    = (record_of_body ∘ body) <$> filter yields_record bs).
  { unfold records_of. simpl fst. simpl snd.
    apply (emitted_records (record_of_body ∘ body) [∅] extra bs). }
  split_and!.
  - unfold load_objects_from_mvo, parse_lines.
    rewrite for_each_app, Hrun, bind_ok, Htl. done.
  - done.
  - apply emitted_NoDup.
  - intros Hall. rewrite Hrec, (filter_all _ _ Hall). by rewrite length_fmap.
Qed.

Lemma one_record_per_block_witness :
  ∃ res,
    load_objects_from_mvo
      ["begin_object"; "a: b"; "end_object"; "begin_object"; "end_object";
       "begin_object"; "c: d"] = Ok res
    ∧ records_of res = [record_of_body ["a: b"]].
Proof.
  assert (Hbs : Forall well_formed
                  [Block "begin_object" ["a: b"] "end_object";
                   Block "begin_object" [] "end_object"]).
  { constructor; [|constructor; [|constructor]].
    - split_and!; [reflexivity | reflexivity |].
      constructor; [|constructor]. left. eexists. reflexivity.
    - split_and!; [reflexivity | reflexivity | constructor]. }
  assert (Htail : open_tail ["begin_object"; "c: d"]).
  { right. exists "begin_object", ["c: d"].
    split_and!; [reflexivity | reflexivity |].
    constructor; [|constructor]. left. eexists. reflexivity. }
  destruct (one_record_per_block _ _ Hbs Htail) as (res & Hres & Hrec & _).
  exists res. split; [exact Hres | exact Hrec].
Defined.

(** C1 (as amended). At an [end_object] line with a non-empty
    accumulator the parser appends the accumulator object itself to the
    result and keeps it as the accumulator: nothing is copied or reset.
    A field line that follows is therefore written into that same object,
    emitted or not.  Only a [begin_object] line installs a fresh object;
    from then on no line alters a record that was emitted before it. *)
Theorem end_object_appends_accumulator :
  (∀ st raw,
     is_end raw → deref (store st) (current_object st) ≠ ∅ →
     parse_line st raw
     = Ok (ParserState (store st) (objects st ++ [current_object st])
                       (current_object st)))
  ∧ (∀ st raw key v,
       current_object st < length (store st) →
       field_of raw = Some (key, v) →
       ∃ st',
         parse_line st raw = Ok st'
         ∧ objects st' = objects st
         ∧ current_object st' = current_object st
         ∧ deref (store st') (current_object st)
           = <[key := v]> (deref (store st) (current_object st)))
  ∧ (∀ pre st b rest st',
       parse_lines pre = Ok st → is_begin b →
       parse_from st (b :: rest) = Ok st' →
       objects st `prefix_of` objects st'
       ∧ ∀ r, r ∈ objects st → deref (store st') r = deref (store st) r).
Proof.
  split_and!.
  - intros st raw He Hne. rewrite (parse_line_end _ _ He).
    apply truthy_iff in Hne. by rewrite Hne.
  - intros st raw key v Hc Hf. rewrite (parse_line_field _ _ _ _ Hf).
    eexists. split_and!; try done. simpl. unfold deref.
    rewrite list_lookup_alter_eq.
    destruct (lookup_lt_is_Some_2 _ _ Hc) as [obj ->]. done.
  - intros pre st b rest st' Hpre Hb Hrun.
    pose proof (parse_from_inv _ _ _ parser_inv_init Hpre) as [_ Hc Ho].
    unfold parse_from in Hrun. rewrite for_each_cons in Hrun.
    rewrite (parse_line_begin _ _ Hb), bind_ok in Hrun.
    destruct (parse_from_frame _ _ _ (length (store st)) Hrun) as [Hst Hobj]; simpl.
    { done. } { rewrite length_app. simpl. lia. }
    split; [done|]. intros r Hr.
    rewrite Forall_forall in Ho. specialize (Ho r Hr). simpl in Ho.
    unfold deref. rewrite (Hst r Ho). simpl. by rewrite lookup_app_l.
Qed.

Lemma end_object_appends_accumulator_witness :
  ∃ st st',
    parse_lines ["begin_object"; "a: b"; "end_object"] = Ok st
    ∧ parse_from st ["begin_object"; "c: d"; "end_object"] = Ok st'
    ∧ objects st `prefix_of` objects st'
    ∧ ∀ r, r ∈ objects st → deref (store st') r = deref (store st) r.
Proof.
  eexists _, _.
  split; [reflexivity|]. split; [reflexivity|].
  eapply (proj2 (proj2 end_object_appends_accumulator)
            ["begin_object"; "a: b"; "end_object"] _ "begin_object"
            ["c: d"; "end_object"] _).
  - reflexivity.
  - reflexivity.
  - reflexivity.
Defined.

(** C1, counterexample.  After the first block is closed, a field line
    and a second [end_object] follow without a [begin_object]: the
    emitted record gains the field, and the same object is appended a
    second time. *)
Lemma end_object_neither_copies_nor_resets :
  (records_of <$> load_objects_from_mvo ["begin_object"; "a: b"; "end_object"])
  = Ok [ {[ "a" := VStr "b" ]} ]
  ∧ (snd <$> load_objects_from_mvo
               ["begin_object"; "a: b"; "end_object"; "c: d"; "end_object"])
    = Ok [1; 1]
  ∧ (records_of <$> load_objects_from_mvo
                      ["begin_object"; "a: b"; "end_object"; "c: d"; "end_object"])
    = Ok [ <["c" := VStr "d"]> {[ "a" := VStr "b" ]};
           <["c" := VStr "d"]> {[ "a" := VStr "b" ]} ].
Proof. by vm_compute. Qed.

(** C3. A line without any colon is passed over.  A line that has a
    colon but no colon-space is taken as a field line all the same, and
    unpacking its split into [key, value] raises: the parse of
    [key:value] does not complete. *)
Theorem bare_colon_line_raises :
  (∀ st raw,
     ¬ is_begin raw → ¬ is_end raw →
     PyStr.contains ":" (PyStr.strip raw) = false →
     parse_line st raw = Ok st)
  ∧ (∀ st raw,
       ¬ is_begin raw → ¬ is_end raw →
       PyStr.contains ":" (PyStr.strip raw) = true →
       PyStr.contains ": " (PyStr.strip raw) = false →
       parse_line st raw = Err (ValueError NotEnoughValues))
  ∧ parse_lines ["begin_object"; "key:value"; "end_object"]
    = Err (ValueError NotEnoughValues).
Proof.
  split_and!.
  - intros st raw Hb He Hc. apply parse_line_ignored.
    unfold ignored, is_begin, is_end in *.
    apply eqb_false_iff in Hb, He. rewrite Hb, He, Hc. simpl.
    by rewrite andb_false_r.
  - apply bare_colon_raises.
  - by vm_compute.
Qed.

Lemma bare_colon_line_raises_witness :
  parse_line parser_init "key:value" = Err (ValueError NotEnoughValues).
Proof.
  apply (proj1 (proj2 bare_colon_line_raises)).
  - discriminate.
  - discriminate.
  - reflexivity.
  - reflexivity.
Defined.

(** C9. If some line of the input is a [position] or [size_duration]
    field line whose value is not numeric, the parse raises a
    [ValueError]: no record list is returned, both builders raise it
    before building anything, and a run produces no artifact whatever
    the flags. *)
Theorem malformed_number_aborts_run (lines : list string) (raw : string) :
  raw ∈ lines → bad_numeric raw →
  ∃ w,
    load_objects_from_mvo lines = Err (ValueError w)
    ∧ create_midi_from_mvo lines = Err (ValueError w)
    ∧ create_vtk_from_mvo lines = Err (ValueError w)
    ∧ ∀ midi_flag vtk_flag,
        main lines midi_flag vtk_flag
        = ([], if midi_flag || vtk_flag then Some (ValueError w) else None).
Proof.
  intros Hin Hbad.
  destruct (for_each_raises parse_line (λ e, ∃ w, e = ValueError w)
              parser_init lines raw Hin) as (e & Hrun & w & ->).
  { intros s. destruct (bad_numeric_raises s raw Hbad) as [w Hw]. eauto. }
  { intros s y e. apply parse_line_error. }
  exists w.
  assert (Hload : load_objects_from_mvo lines = Err (ValueError w)).
  { unfold load_objects_from_mvo, parse_lines. by rewrite Hrun. }
  assert (Hmidi : create_midi_from_mvo lines = Err (ValueError w)).
  { unfold create_midi_from_mvo. by rewrite Hload. }
  assert (Hvtk : create_vtk_from_mvo lines = Err (ValueError w)).
  { unfold create_vtk_from_mvo. by rewrite Hload. }
  split_and!; try done.
  intros midi_flag vtk_flag. unfold main. rewrite Hmidi, Hvtk.
  by destruct midi_flag, vtk_flag.
Qed.

Lemma malformed_number_aborts_run_witness :
  ∃ w,
    load_objects_from_mvo
      ["begin_object"; "instrument_shape: piano_sphere";
       "position: 0, zero, 0"; "end_object"] = Err (ValueError w)
    ∧ ∀ midi_flag vtk_flag,
        main ["begin_object"; "instrument_shape: piano_sphere";
              "position: 0, zero, 0"; "end_object"] midi_flag vtk_flag
        = ([], if midi_flag || vtk_flag then Some (ValueError w) else None).
Proof.
  assert (Hin : "position: 0, zero, 0"
                ∈ ["begin_object"; "instrument_shape: piano_sphere";
                   "position: 0, zero, 0"; "end_object"]).
  { rewrite !elem_of_cons. right; right; left. reflexivity. }
  assert (Hbad : bad_numeric "position: 0, zero, 0").
  { exists "position", "0, zero, 0". split; [reflexivity|]. left.
    split; [reflexivity|]. exists "zero". split; [|reflexivity].
    change (PyStr.split ", " "0, zero, 0") with ["0"; "zero"; "0"].
    rewrite !elem_of_cons. right; left. reflexivity. }
  destruct (malformed_number_aborts_run _ _ Hin Hbad) as (w & Hload & _ & _ & Hmain).
  exists w. split; [exact Hload | exact Hmain].
Defined.

(* ===================================================================== *)
(** * Records without the fields the score builder reads *)
(* ===================================================================== *)

Lemma ensure_track_known st x : is_Some (track_details (ensure_track st x) !! x).
Proof.
  unfold ensure_track. destruct (track_details st !! x) eqn:Hx; simpl.
  - rewrite Hx. eauto.
  - rewrite lookup_insert_eq. eauto.
Qed.

Lemma typed_string_field obj key v :
  typed obj → obj !! key = Some v →
  key ≠ "position" → key ≠ "size_duration" →
  ∃ s, v = VStr s.
Proof.
  intros Hobj Hv Hp Hs. specialize (Hobj key v Hv).
  destruct v as [s| |]; simpl in Hobj; [eauto | done | done].
Qed.

(** On a parsed record that lacks one of the three fields, the
    iteration raises [KeyError] for the first one that is missing. *)
Lemma score_step_lacks st obj :
  typed obj → lacks_score_field obj →
  ∃ key, score_step st obj = Err (KeyError key) ∧ obj !! key = None.
Proof.
  intros Hobj Hlacks. unfold score_step, getitem.
  destruct (obj !! "instrument_shape") as [v1|] eqn:H1; [|by eauto].
  destruct (typed_string_field _ _ _ Hobj H1) as [a ->]; [done|done|].
  simpl. unfold list_index. rewrite split_underscore_head. simpl.
  destruct (ensure_track_known st (before_first "_" a)) as [t ->]. simpl.
  destruct (obj !! "note_color") as [v2|] eqn:H2; [|by eauto].
  destruct (typed_string_field _ _ _ Hobj H2) as [b ->]; [done|done|].
  simpl. rewrite split_underscore_head. simpl.
  destruct (obj !! "size_duration") as [v3|] eqn:H3; [|by eauto].
  unfold lacks_score_field in Hlacks. destruct Hlacks as [? | [? | ?]]; congruence.
Qed.

Lemma parsed_records_typed lines res :
  load_objects_from_mvo lines = Ok res → Forall typed (records_of res).
Proof.
  unfold load_objects_from_mvo.
  destruct (parse_lines lines) as [st|] eqn:Hrun; simpl; [|done].
  intros [= <-].
  pose proof (parse_from_inv _ _ _ parser_inv_init Hrun) as [Ht _ _].
  unfold records_of. simpl. apply Forall_fmap, Forall_forall.
  intros r _. simpl. unfold deref.
  destruct (store st !! r) as [obj|] eqn:Hr; simpl; [|apply typed_empty].
  rewrite Forall_forall in Ht. apply Ht. by eapply list_elem_of_lookup_2.
Qed.

(** C10. The parser returns records whatever fields they have.  When
    a returned record lacks [instrument_shape], [note_color] or
    [size_duration], the score builder raises a [KeyError] for a missing
    field on reaching it, from any state of the loop: the record is
    neither passed over nor given a default, and the musical generation
    does not complete. *)
Theorem missing_field_raises_key_error
    (lines : list string) (res : list record * list nat)
    (pre post : list record) (obj : record) :
  load_objects_from_mvo lines = Ok res →
  records_of res = pre ++ obj :: post →
  lacks_score_field obj →
  (∀ st, ∃ key, score_step st obj = Err (KeyError key) ∧ obj !! key = None)
  ∧ (∃ e, create_midi_from_mvo lines = Err e)
  ∧ (∀ st, for_each score_step score_init pre = Ok st →
           ∃ key, create_midi_from_mvo lines = Err (KeyError key)
                  ∧ obj !! key = None).
Proof.
  intros Hload Hrec Hlacks.
  assert (Hobj : typed obj).
  { pose proof (parsed_records_typed _ _ Hload) as Ht.
    rewrite Hrec, Forall_app, Forall_cons in Ht. tauto. }
  assert (Hstep : ∀ st, ∃ key, score_step st obj = Err (KeyError key)
                               ∧ obj !! key = None)
    by (intros; by apply score_step_lacks).
  split; [done|].
  unfold create_midi_from_mvo, build_score. rewrite Hload, bind_ok, Hrec. split.
  - destruct (for_each_cannot_complete score_step score_init pre obj post)
      as [e ->]; [|by eauto].
    intros s. destruct (Hstep s) as (key & -> & _). eauto.
  - intros st Hpre. destruct (Hstep st) as (key & Hkey & Hnone).
    exists key. by rewrite (for_each_first_error _ _ _ _ _ _ _ Hpre Hkey).
Qed.

Lemma missing_field_raises_key_error_witness :
  ∃ key,
    create_midi_from_mvo two_blocks_second_without_note = Err (KeyError key)
    ∧ drum_without_note !! key = None.
Proof.
  assert (Hload :
    load_objects_from_mvo two_blocks_second_without_note
    = Ok ([∅; sample_record "piano_sphere" "C4_red" two_and_a_half;
           drum_without_note], [1; 2])).
  { vm_compute. reflexivity. }
  assert (Hrec :
    records_of ([∅; sample_record "piano_sphere" "C4_red" two_and_a_half;
                 drum_without_note], [1; 2])
    = [sample_record "piano_sphere" "C4_red" two_and_a_half]
        ++ drum_without_note :: []).
  { reflexivity. }
  assert (Hlacks : lacks_score_field drum_without_note).
  { right; left. reflexivity. }
  destruct (missing_field_raises_key_error _ _ _ _ _ Hload Hrec Hlacks)
    as (_ & _ & Hkey).
  eapply Hkey. reflexivity.
Defined.

(* ===================================================================== *)
(** * Further properties of the parser *)
(* ===================================================================== *)

Lemma for_each_error_split {S A} (body : S → A → result S) st l e :
  for_each body st l = Err e →
  ∃ l1 x l2 st1,
    l = l1 ++ x :: l2 ∧ for_each body st l1 = Ok st1 ∧ body st1 x = Err e.
Proof.
  revert st. induction l as [|x l IH]; intros st; simpl; [done|].
  destruct (body st x) as [st'|e'] eqn:Hx; simpl.
  - intros Hrest. destruct (IH _ Hrest) as (l1 & y & l2 & st1 & -> & H1 & Hy).
    exists (x :: l1), y, l2, st1. simpl. by rewrite Hx.
  - intros [= <-]. by exists [], x, l, st.
Qed.

(** X1. The parse fails exactly when some line cannot be processed in
    the state reached by the lines before it; the exception is the one
    of the first such line, it is a [ValueError], and the lines after it
    play no part. *)
Theorem parse_fails_at_first_bad_line (lines : list string) (e : exn) :
  load_objects_from_mvo lines = Err e
  ↔ ∃ pre raw post st,
      lines = pre ++ raw :: post
      ∧ parse_lines pre = Ok st
      ∧ parse_line st raw = Err e
      ∧ ∃ w, e = ValueError w.
Proof.
  unfold load_objects_from_mvo, parse_lines. split.
  - destruct (for_each parse_line parser_init lines) as [st|e'] eqn:Hrun; [done|].
    simpl. intros [= ->].
    destruct (for_each_error_split _ _ _ _ Hrun) as (pre & raw & post & st & -> & Hpre & Hraw).
    exists pre, raw, post, st. split_and!; try done. by eapply parse_line_error.
  - intros (pre & raw & post & st & -> & Hpre & Hraw & _).
    by rewrite (for_each_first_error _ _ _ _ _ _ _ Hpre Hraw).
Qed.

Lemma parse_fails_at_first_bad_line_witness :
  load_objects_from_mvo ["begin_object"; "a: b"; "size_duration: long"; "end_object"]
  = Err (ValueError (BadFloat "long")).
Proof.
  apply (proj2 (parse_fails_at_first_bad_line _ _)).
  exists ["begin_object"; "a: b"], "size_duration: long", ["end_object"].
  eexists. split; [reflexivity|]. split; [reflexivity|].
  split; [reflexivity|]. eexists. reflexivity.
Defined.

Lemma parse_from_no_end st lines st' :
  Forall (λ raw, ¬ is_end raw) lines →
  parse_from st lines = Ok st' → objects st' = objects st.
Proof.
  unfold parse_from. intros Hall. revert st.
  induction Hall as [|raw lines Hraw _ IH]; intros st; simpl.
  - by intros [= <-].
  - destruct (parse_line st raw) as [st1|] eqn:Hstep; simpl; [|done].
    intros Hrest. rewrite (IH _ Hrest).
    destruct (parse_line_cases _ _ _ Hstep)
      as [[_ ->] | [(_ & He & _) | [(_ & key & v & Hf & ->) | (_ & _ & ->)]]];
      done.
Qed.

(** X2. Records are emitted at [end_object] lines only: an input
    without such a line yields the empty list, however many
    [begin_object] and field lines it has. *)
Theorem no_end_object_no_record (lines : list string) (res : list record * list nat) :
  Forall (λ raw, ¬ is_end raw) lines →
  load_objects_from_mvo lines = Ok res →
  snd res = [] ∧ records_of res = [].
Proof.
  unfold load_objects_from_mvo.
  destruct (parse_lines lines) as [st|] eqn:Hrun; simpl; [|done].
  intros Hall [= <-].
  pose proof (parse_from_no_end _ _ _ Hall Hrun) as Hobj. simpl in Hobj.
  unfold records_of. simpl. by rewrite Hobj.
Qed.

Lemma no_end_object_no_record_witness :
  records_of ([∅; {["a" := VStr "b"]}; {["c" := VStr "d"]}], []) = [].
Proof.
  assert (Hall : Forall (λ raw, ¬ is_end raw)
                   ["begin_object"; "a: b"; "begin_object"; "c: d"]).
  { repeat constructor; discriminate. }
  assert (Hload :
    load_objects_from_mvo ["begin_object"; "a: b"; "begin_object"; "c: d"]
    = Ok ([∅; {["a" := VStr "b"]}; {["c" := VStr "d"]}], [])).
  { vm_compute. reflexivity. }
  exact (proj2 (no_end_object_no_record _ _ Hall Hload)).
Defined.

Lemma emitted_nonempty_step st raw st' :
  parser_inv st → emitted_nonempty st →
  parse_line st raw = Ok st' → emitted_nonempty st'.
Proof.
  unfold emitted_nonempty. intros [_ Hc Ho] Hne Hstep.
  destruct (parse_line_cases _ _ _ Hstep)
    as [[_ ->] | [(_ & _ & ->) | [(_ & key & v & Hf & ->) | (_ & _ & ->)]]];
    simpl; try done.
  - rewrite Forall_forall in *. intros r Hr. specialize (Ho r Hr). simpl in Ho.
    unfold deref. rewrite lookup_app_l by done. by apply Hne.
  - destruct (truthy _) eqn:Htr; [|done]. simpl.
    apply Forall_app. split; [done|]. constructor; [|constructor].
    by apply truthy_iff.
  - rewrite Forall_forall in *. intros r Hr. specialize (Hne r Hr).
    unfold deref in *. rewrite list_lookup_alter.
    destruct (decide (current_object st = r)) as [->|]; [|done].
    destruct (store st !! r) as [obj|]; simpl; [|done].
    apply insert_non_empty.
Qed.

Lemma emitted_nonempty_run st lines st' :
  parser_inv st → emitted_nonempty st →
  parse_from st lines = Ok st' → emitted_nonempty st'.
Proof.
  unfold parse_from. revert st.
  induction lines as [|raw lines IH]; intros st Hinv Hne; simpl.
  - by intros [= <-].
  - destruct (parse_line st raw) as [st1|] eqn:Hstep; simpl; [|done].
    apply IH; [by eapply parse_line_inv | by eapply emitted_nonempty_step].
Qed.

(** X3. No returned record is empty, on any input: a dict is appended
    only when it has a field, and the parser never removes a field. *)
Theorem returned_records_nonempty (lines : list string) (res : list record * list nat) :
  load_objects_from_mvo lines = Ok res →
  Forall (λ obj, obj ≠ ∅) (records_of res).
Proof.
  unfold load_objects_from_mvo.
  destruct (parse_lines lines) as [st|] eqn:Hrun; simpl; [|done].
  intros [= <-].
  assert (Hne : emitted_nonempty st).
  { eapply emitted_nonempty_run; [apply parser_inv_init | | exact Hrun].
    constructor. }
  unfold records_of. simpl. by apply Forall_fmap.
Qed.

Lemma returned_records_nonempty_witness :
  Forall (λ obj : record, obj ≠ ∅)
         (records_of ([∅; {["a" := VStr "b"]}], [1; 1])).
Proof.
  apply (returned_records_nonempty
           ["begin_object"; "end_object"; "a: b"; "end_object"; "end_object"]).
  vm_compute. reflexivity.
Defined.

Lemma add_fields_app m l1 l2 :
  add_fields m (l1 ++ l2) = add_fields (add_fields m l1) l2.
Proof. unfold add_fields. apply foldl_app. Qed.

Lemma add_fields_other m lines key :
  Forall (λ raw, key_of raw ≠ Some key) lines →
  add_fields m lines !! key = m !! key.
Proof.
  unfold add_fields, key_of. intros Hall. revert m.
  induction Hall as [|raw lines Hraw _ IH]; intros m; simpl; [done|].
  rewrite IH. destruct (field_of raw) as [[k v]|]; [|done].
  rewrite lookup_insert_ne; [done|]. intros ->. by apply Hraw.
Qed.

Lemma add_fields_last m l1 raw l2 key v :
  field_of raw = Some (key, v) →
  Forall (λ r, key_of r ≠ Some key) l2 →
  add_fields m (l1 ++ raw :: l2) !! key = Some v.
Proof.
  intros Hf Hl2. rewrite add_fields_app.
  change (add_fields (add_fields m l1) (raw :: l2))
    with (add_fields (match field_of raw with
                      | Some (k, v) => <[k := v]> (add_fields m l1)
                      | None => add_fields m l1
                      end) l2).
  rewrite Hf, add_fields_other by done. apply lookup_insert_eq.
Qed.

Lemma add_fields_keys m lines key :
  is_Some (add_fields m lines !! key)
  ↔ is_Some (m !! key) ∨ Exists (λ raw, key_of raw = Some key) lines.
Proof.
  unfold add_fields, key_of. revert m.
  induction lines as [|raw lines IH]; intros m; simpl.
  - rewrite Exists_nil. tauto.
  - rewrite IH, Exists_cons. destruct (field_of raw) as [[k v]|]; simpl.
    + destruct (decide (k = key)) as [->|Hne].
      * rewrite lookup_insert_eq. split; [|by eauto]. intros _. right; by left.
      * rewrite lookup_insert_ne by done. split; [tauto|].
        intros [? | [[=] | ?]]; tauto.
    + split; [tauto|]. intros [? | [[=] | ?]]; tauto.
Qed.

Lemma has_field_Exists lines :
  has_field lines = true ↔ Exists (λ raw, is_Some (field_of raw)) lines.
Proof.
  unfold has_field. induction lines as [|raw lines IH]; simpl.
  - rewrite Exists_nil. split; [done | tauto].
  - rewrite Exists_cons, orb_true_iff, IH, bool_decide_eq_true. tauto.
Qed.

(** The parse of one block read from the initial state. *)
Lemma single_block_run b :
  well_formed b →
  load_objects_from_mvo (block_lines b)
  = Ok ([∅; record_of_body (body b)], if yields_record b then [1] else []).
Proof.
  intros Hb. unfold load_objects_from_mvo, parse_lines.
  pose proof (block_run parser_init b Hb) as Hrun. unfold parse_from in Hrun.
  by rewrite Hrun.
Qed.

(** X4. Within a block a key written more than once keeps the value of
    its last field line, and the record returned for the block has
    exactly the keys of the block's field lines. *)
Theorem block_record_keys_and_last_value
    (o c : string) (body1 body2 : list string) (raw key : string) (v : value) :
  is_begin o → is_end c →
  Forall body_line (body1 ++ raw :: body2) →
  field_of raw = Some (key, v) →
  Forall (λ r, key_of r ≠ Some key) body2 →
  ∃ res obj,
    load_objects_from_mvo (o :: (body1 ++ raw :: body2) ++ [c]) = Ok res
    ∧ records_of res = [obj]
    ∧ obj !! key = Some v
    ∧ ∀ k, is_Some (obj !! k)
           ↔ Exists (λ r, key_of r = Some k) (body1 ++ raw :: body2).
Proof.
  intros Ho Hc Hbody Hf Hlast.
  pose proof (single_block_run (Block o (body1 ++ raw :: body2) c)) as Hrun.
  unfold block_lines, yields_record in Hrun. simpl in Hrun.
  assert (Hhas : has_field (body1 ++ raw :: body2) = true).
  { apply has_field_Exists, Exists_app. right. apply Exists_cons. left. eauto. }
  rewrite Hhas in Hrun.
  eexists _, (record_of_body (body1 ++ raw :: body2)).
  split; [by apply Hrun|]. split; [done|]. split.
  - by apply add_fields_last.
  - intros k. unfold record_of_body. rewrite add_fields_keys, lookup_empty.
    split; [|tauto]. intros [[? [=]] | ?]. done.
Qed.

Lemma block_record_keys_and_last_value_witness :
  ∃ res obj,
    load_objects_from_mvo
      ["begin_object"; "note_color: C4_red"; "note_color: G4_blue"; "x: y";
       "end_object"] = Ok res
    ∧ records_of res = [obj]
    ∧ obj !! "note_color" = Some (VStr "G4_blue").
Proof.
  destruct (block_record_keys_and_last_value
              "begin_object" "end_object" ["note_color: C4_red"] ["x: y"]
              "note_color: G4_blue" "note_color" (VStr "G4_blue"))
    as (res & obj & Hres & Hrec & Hkey & _).
  - reflexivity.
  - reflexivity.
  - constructor; [left; eexists; reflexivity|].
    constructor; [left; eexists; reflexivity|].
    constructor; [left; eexists; reflexivity | constructor].
  - reflexivity.
  - constructor; [discriminate | constructor].
  - exists res, obj. split; [exact Hres|]. split; [exact Hrec | exact Hkey].
Defined.

(** X5. A [begin_object] inside an open block starts over: the fields
    read since the previous [begin_object] are dropped, and the record
    emitted at [end_object] is that of the lines after the last
    [begin_object]. *)
Theorem last_begin_object_wins
    (o1 o2 c : string) (body1 body2 : list string) :
  is_begin o1 → Forall body_line body1 →
  is_begin o2 → Forall body_line body2 → is_end c →
  ∃ res,
    load_objects_from_mvo (o1 :: body1 ++ o2 :: body2 ++ [c]) = Ok res
    ∧ records_of res
      = if has_field body2 then [record_of_body body2] else [].
Proof.
  intros Ho1 Hb1 Ho2 Hb2 Hc.
  unfold load_objects_from_mvo, parse_lines.
  rewrite for_each_cons, (parse_line_begin _ _ Ho1), bind_ok, for_each_app.
  pose proof (body_run (ParserState (store parser_init ++ [∅]) (objects parser_init)
                          (length (store parser_init)))
                body1 (store parser_init) ∅ eq_refl eq_refl Hb1) as Hrun1.
  unfold parse_from in Hrun1. rewrite Hrun1, bind_ok.
  assert (Hwf : well_formed (Block o2 body2 c)) by done.
  pose proof (block_run (ParserState (store parser_init ++ [add_fields ∅ body1])
                           (objects parser_init) (length (store parser_init)))
                (Block o2 body2 c) Hwf) as Hrun2.
  unfold parse_from, block_lines, yields_record in Hrun2.
  simpl in Hrun2 |- *. rewrite Hrun2. simpl.
  eexists. split; [done|]. unfold records_of. simpl.
  by destruct (has_field body2).
Qed.

Lemma last_begin_object_wins_witness :
  ∃ res,
    load_objects_from_mvo
      ["begin_object"; "a: b"; "begin_object"; "c: d"; "end_object"] = Ok res
    ∧ records_of res = [record_of_body ["c: d"]].
Proof.
  apply (last_begin_object_wins "begin_object" "begin_object" "end_object"
           ["a: b"] ["c: d"]).
  - reflexivity.
  - constructor; [left; eexists; reflexivity | constructor].
  - reflexivity.
  - constructor; [left; eexists; reflexivity | constructor].
  - reflexivity.
Defined.

(** X6. The accumulator exists before any [begin_object]: field lines
    at the head of the input, closed by [end_object], form a record just
    as a block does. *)
Theorem leading_fields_form_a_record (lines : list string) (c : string) :
  Forall body_line lines → is_end c →
  ∃ res,
    load_objects_from_mvo (lines ++ [c]) = Ok res
    ∧ records_of res
      = if has_field lines then [record_of_body lines] else [].
Proof.
  intros Hlines Hc. unfold load_objects_from_mvo, parse_lines.
  rewrite for_each_app.
  pose proof (body_run parser_init lines [] ∅ eq_refl eq_refl Hlines) as Hrun.
  unfold parse_from in Hrun. rewrite Hrun, bind_ok.
  rewrite for_each_cons, (parse_line_end _ _ Hc), bind_ok. simpl.
  change (deref [add_fields ∅ lines] 0) with (add_fields ∅ lines).
  rewrite truthy_add_fields. simpl.
  eexists. split; [done|]. unfold records_of.
  by destruct (has_field lines).
Qed.

Lemma leading_fields_form_a_record_witness :
  ∃ res,
    load_objects_from_mvo ["a: b"; ""; "end_object"] = Ok res
    ∧ records_of res = [record_of_body ["a: b"; ""]].
Proof.
  apply (leading_fields_form_a_record ["a: b"; ""] "end_object").
  - constructor; [left; eexists; reflexivity|].
    constructor; [right; reflexivity | constructor].
  - reflexivity.
Defined.

(* ===================================================================== *)
(** * Further properties of lines and tokens *)
(* ===================================================================== *)

Lemma find_cons sep c s :
  PyStr.find sep (String c s)
  = match PyStr.strip_prefix sep (String c s) with
    | Some rest => Some (EmptyString, rest)
    | None => match PyStr.find sep s with
              | Some (a, b) => Some (String c a, b)
              | None => None
              end
    end.
Proof. reflexivity. Qed.

Lemma strip_prefix_two_chars c1 c2 c key val :
  c1 ≠ c2 →
  PyStr.strip_prefix (String c1 (String c2 "")) (String c key) = None →
  PyStr.strip_prefix (String c1 (String c2 ""))
                     (String c (key +:+ String c1 (String c2 val))) = None.
Proof.
  intros Hne. simpl. destruct (Ascii.eqb c1 c); [|done].
  destruct key as [|b key]; simpl.
  - intros _. assert (Ascii.eqb c2 c1 = false) as ->; [|done].
    apply Ascii.eqb_neq. congruence.
  - by destruct (Ascii.eqb c2 b).
Qed.

Lemma find_two_chars c1 c2 key val :
  c1 ≠ c2 →
  PyStr.contains (String c1 (String c2 "")) key = false →
  PyStr.find (String c1 (String c2 "")) (key +:+ String c1 (String c2 val))
  = Some (key, val).
Proof.
  intros Hne. unfold PyStr.contains.
  induction key as [|c key IH].
  - intros _. simpl. by rewrite !Ascii.eqb_refl.
  - rewrite find_cons.
    destruct (PyStr.strip_prefix _ (String c key)) eqn:Hp; [done|].
    destruct (PyStr.find _ key) as [[? ?]|] eqn:Hf; [done|].
    intros _.
    change (String c key +:+ String c1 (String c2 val))
      with (String c (key +:+ String c1 (String c2 val))).
    rewrite find_cons, strip_prefix_two_chars by done.
    by rewrite IH.
Qed.

(** X7. A field line is cut at its first colon-space: the key is the
    text before it and the value is all the text after it, further
    colon-spaces included, stored verbatim unless the key is [position]
    or [size_duration]. *)
Theorem field_line_cut_at_first_colon_space (st : parser_state) (key val : string) :
  PyStr.contains ": " key = false →
  PyStr.strip (key +:+ ": " +:+ val) = key +:+ ": " +:+ val →
  parse_line st (key +:+ ": " +:+ val)
  = (v ← coerce key val; Ok (setitem st key v))
  ∧ (key ≠ "position" → key ≠ "size_duration" →
     parse_line st (key +:+ ": " +:+ val) = Ok (setitem st key (VStr val))).
Proof.
  intros Hkey Hstrip.
  assert (Hsplit : PyStr.split_once ": " (key +:+ ": " +:+ val) = [key; val]).
  { unfold PyStr.split_once.
    change (key +:+ ": " +:+ val) with (key +:+ String ":" (String " " val)).
    by rewrite find_two_chars. }
  destruct (splits_is_field_line _ _ _ Hsplit) as (Hb & He & Hf).
  assert (Hline : parse_line st (key +:+ ": " +:+ val)
                  = (v ← coerce key val; Ok (setitem st key v))).
  { unfold parse_line. rewrite Hstrip, Hb, He, Hf.
    unfold field_line. rewrite Hsplit. by destruct (coerce key val). }
  split; [done|]. intros Hp Hs. rewrite Hline. unfold coerce.
  apply eqb_false_iff in Hp, Hs. by rewrite Hp, Hs.
Qed.

Lemma field_line_cut_at_first_colon_space_witness :
  parse_line parser_init "title: a: b: c"
  = Ok (setitem parser_init "title" (VStr "a: b: c")).
Proof.
  apply (proj2 (field_line_cut_at_first_colon_space parser_init "title" "a: b: c"
                  eq_refl eq_refl)); discriminate.
Defined.

Lemma lstrip_all_space sp s :
  all_chars sp s = true → PyStr.lstrip_by sp s = "".
Proof.
  induction s as [|c s IH]; simpl; [done|].
  intros [Hc Hs]%andb_true_iff. rewrite Hc. by apply IH.
Qed.

Lemma rstrip_all_space sp s :
  all_chars sp s = true → PyStr.rstrip_by sp s = "".
Proof.
  induction s as [|c s IH]; simpl; [done|].
  intros [Hc Hs]%andb_true_iff. by rewrite (IH Hs), Hc.
Qed.

Lemma lstrip_app_l sp pre s :
  all_chars sp pre = true → PyStr.lstrip_by sp (pre +:+ s) = PyStr.lstrip_by sp s.
Proof.
  induction pre as [|c pre IH]; simpl; [done|].
  intros [Hc Hs]%andb_true_iff. rewrite Hc. by apply IH.
Qed.

Lemma rstrip_app_r sp s post :
  all_chars sp post = true → PyStr.rstrip_by sp (s +:+ post) = PyStr.rstrip_by sp s.
Proof.
  intros Hpost. induction s as [|c s IH]; simpl.
  - by apply rstrip_all_space.
  - by rewrite IH.
Qed.

Lemma strip_app sp pre s post :
  all_chars sp pre = true → all_chars sp post = true →
  PyStr.strip_by sp (pre +:+ s +:+ post) = PyStr.strip_by sp s.
Proof.
  intros Hpre Hpost. unfold PyStr.strip_by. rewrite lstrip_app_l by done.
  induction s as [|c s IH]; simpl.
  - by rewrite lstrip_all_space.
  - destruct (sp c); [done|].
    apply (rstrip_app_r sp (String c s) post Hpost).
Qed.

(** X8. White space around a line is of no account: a line preceded
    and followed by any run of white-space characters (indentation, the
    newline, a trailing carriage return) is processed as the line
    itself. *)
Theorem surrounding_space_ignored (st : parser_state) (pre raw post : string) :
  all_chars PyStr.isspace pre = true →
  all_chars PyStr.isspace post = true →
  parse_line st (pre +:+ raw +:+ post) = parse_line st raw.
Proof.
  intros Hpre Hpost. unfold parse_line, PyStr.strip.
  by rewrite strip_app.
Qed.

Lemma surrounding_space_ignored_witness :
  parse_line parser_init (String "009" "  " +:+ "a: b" +:+ String "013" (String "010" ""))
  = parse_line parser_init "a: b".
Proof.
  apply surrounding_space_ignored; reflexivity.
Defined.

(** X9. Whatever the token, the pitch resolved lies between 60 and 77,
    so it is a valid MIDI pitch; and a pitch other than Middle C is the
    standard pitch of the note named. *)
Theorem note_to_midi_range (name : string) :
  (60 ≤ note_to_midi name ≤ 77)%Z
  ∧ (note_to_midi name ≠ 60%Z → standard_pitch name = Some (note_to_midi name)).
Proof.
  rewrite note_to_midi_resolved. unfold resolved_pitch.
  destruct (standard_pitch name) as [p|]; [|split; [lia | done]].
  destruct ((60 <=? p)%Z && (p <=? 77)%Z) eqn:Hp; [|split; [lia | done]].
  apply andb_true_iff in Hp as [H1%Z.leb_le H2%Z.leb_le]. split; [lia | done].
Qed.

Lemma note_to_midi_range_witness :
  standard_pitch "G4" = Some (note_to_midi "G4").
Proof.
  apply (proj2 (note_to_midi_range "G4")). discriminate.
Defined.

Lemma find_before_clean c s a r :
  PyStr.find (String c "") s = Some (a, r) →
  PyStr.contains (String c "") a = false.
Proof.
  unfold PyStr.contains. revert a.
  induction s as [|d s IH]; intros a; simpl; [done|].
  destruct (Ascii.eqb c d) eqn:Hd.
  - by intros [= <- <-].
  - destruct (PyStr.find (String c "") s) as [[a' b]|] eqn:Hf; [|done].
    intros [= <- <-]. simpl. rewrite Hd.
    specialize (IH a' eq_refl).
    by destruct (PyStr.find (String c "") a') as [[? ?]|].
Qed.

Lemma before_first_clean c s :
  PyStr.contains (String c "") (before_first (String c "") s) = false.
Proof.
  unfold before_first.
  destruct (PyStr.find (String c "") s) as [[a r]|] eqn:Hf.
  - by eapply find_before_clean.
  - unfold PyStr.contains. by rewrite Hf.
Qed.

(** X10. A compound token is cut at every underscore.  The builders
    take component 0 (instrument, note) and component 1 (shape, colour):
    the text before the first underscore and the text between the first
    and the second; what follows a second underscore is dropped.
    Neither component contains an underscore. *)
Theorem tokens_are_first_two_components (s a r : string) :
  PyStr.find "_" s = Some (a, r) →
  (parts ← split_value (VStr s) "_"; list_index parts 0) = Ok a
  ∧ (parts ← split_value (VStr s) "_"; list_index parts 1)
    = Ok (before_first "_" r)
  ∧ PyStr.contains "_" a = false
  ∧ PyStr.contains "_" (before_first "_" r) = false.
Proof.
  intros Hf. simpl. unfold list_index.
  rewrite split_unfold, Hf by done. simpl.
  rewrite split_underscore_head.
  split_and!; try done.
  - by eapply find_before_clean.
  - apply before_first_clean.
Qed.

Lemma tokens_are_first_two_components_witness :
  (parts ← split_value (VStr "piano_sphere_big") "_"; list_index parts 1)
  = Ok "sphere".
Proof.
  apply (tokens_are_first_two_components "piano_sphere_big" "piano" "sphere_big").
  reflexivity.
Defined.

(* ===================================================================== *)
(** * Further properties of the score builder *)
(* ===================================================================== *)

Lemma build_score_ok_ready objs doc :
  build_score objs = Ok doc → Forall score_ready objs.
Proof.
  unfold build_score.
  destruct (for_each score_step score_init objs) as [st|] eqn:Hrun; [|done].
  intros _. eapply for_each_ok_Forall; [|done]. apply score_step_ok_ready.
Qed.

(** The calls of a document, by kind. *)
Lemma build_score_calls objs doc :
  build_score objs = Ok doc →
  let tracks := first_seen (instrument_token <$> objs) in
  num_tracks doc = length objs
  ∧ filter is_track_name (calls doc) = imap (λ k name, AddTrackName k 0 name) tracks
  ∧ filter is_tempo (calls doc) = imap (λ k _, AddTempo k 0 120) tracks
  ∧ filter is_note (calls doc) = expected_note tracks <$> objs
  ∧ filter is_program_change (calls doc)
    = program_change_for <$> (expected_note tracks <$> objs).
Proof.
  intros Hdoc tracks.
  pose proof (build_score_ok_ready _ _ Hdoc) as Hall.
  destruct (score_loop score_init [] objs score_inv_init Hall)
    as (st' & Hloop & Hinv & Hnotes & Hprog).
  simpl in Hinv, Hnotes, Hprog. rewrite filter_not_in_nil in Hinv, Hnotes, Hprog.
  unfold build_score in Hdoc. rewrite Hloop in Hdoc. simpl in Hdoc.
  injection Hdoc as <-. simpl.
  split; [done|]. split; [apply Hinv|]. split; [apply Hinv|]. by split.
Qed.

Lemma first_seen_length (l : list string) : length (first_seen l) ≤ length l.
Proof.
  induction l as [|x l IH]; simpl; [done|].
  pose proof (length_filter (λ y, y ≠ x) (first_seen l)). lia.
Qed.

Lemma call_kind (c : midi_call) :
  is_track_name c ∨ is_tempo c ∨ is_note c ∨ is_program_change c.
Proof. destruct c; simpl; tauto. Qed.

Lemma expected_note_track tracks objs obj :
  obj ∈ objs → length tracks ≤ length objs →
  call_track (expected_note tracks obj) < length objs.
Proof.
  intros Hin Hlen. unfold expected_note. simpl.
  destruct (index_of (instrument_token obj) tracks) as [k|] eqn:Hk; simpl.
  - apply index_of_lookup, lookup_lt_Some in Hk. lia.
  - destruct objs; [by apply elem_of_nil in Hin | simpl; lia].
Qed.

(** X11. The document is created with as many tracks as there are
    records, and that is enough: every call the builder makes addresses
    a track below that number. *)
Theorem track_indices_within_document (objs : list record) (doc : midi_file) :
  build_score objs = Ok doc →
  num_tracks doc = length objs
  ∧ Forall (λ c, call_track c < num_tracks doc) (calls doc).
Proof.
  intros Hdoc.
  destruct (build_score_calls _ _ Hdoc) as (Hnum & Hnames & Htempos & Hnotes & Hprog).
  split; [done|]. rewrite Hnum. apply Forall_forall. intros c Hc.
  pose proof (first_seen_length (instrument_token <$> objs)) as Hlen.
  rewrite length_fmap in Hlen.
  destruct (call_kind c) as [Hk | [Hk | [Hk | Hk]]].
  - assert (Hin : c ∈ filter is_track_name (calls doc))
      by (by apply list_elem_of_filter).
    rewrite Hnames in Hin. apply elem_of_lookup_imap in Hin as (k & n & -> & Hl).
    apply lookup_lt_Some in Hl. simpl. lia.
  - assert (Hin : c ∈ filter is_tempo (calls doc))
      by (by apply list_elem_of_filter).
    rewrite Htempos in Hin. apply elem_of_lookup_imap in Hin as (k & n & -> & Hl).
    apply lookup_lt_Some in Hl. simpl. lia.
  - assert (Hin : c ∈ filter is_note (calls doc))
      by (by apply list_elem_of_filter).
    rewrite Hnotes in Hin. apply list_elem_of_fmap in Hin as (obj & -> & Hobj).
    by apply expected_note_track.
  - assert (Hin : c ∈ filter is_program_change (calls doc))
      by (by apply list_elem_of_filter).
    rewrite Hprog in Hin. apply list_elem_of_fmap in Hin as (n & -> & Hn).
    apply list_elem_of_fmap in Hn as (obj & -> & Hobj).
    by apply (expected_note_track _ objs obj).
Qed.

Example three_records_built : build_score three_records = Ok three_records_document.
Proof. by vm_compute. Qed.

Lemma track_indices_within_document_witness :
  Forall (λ c, call_track c < 3) (calls three_records_document).
Proof.
  exact (proj2 (track_indices_within_document three_records
                  three_records_document three_records_built)).
Defined.

(** X12. Every call is made with the constants of the script: all
    events at time 0, tempo 120, channel 0, program 1, velocity 100.  No
    event is placed later in time, whatever the records say. *)
Theorem all_events_at_time_zero (objs : list record) (doc : midi_file) :
  build_score objs = Ok doc → Forall fixed_arguments (calls doc).
Proof.
  intros Hdoc.
  destruct (build_score_calls _ _ Hdoc) as (_ & Hnames & Htempos & Hnotes & Hprog).
  apply Forall_forall. intros c Hc.
  destruct (call_kind c) as [Hk | [Hk | [Hk | Hk]]].
  - assert (Hin : c ∈ filter is_track_name (calls doc))
      by (by apply list_elem_of_filter).
    rewrite Hnames in Hin. by apply elem_of_lookup_imap in Hin as (k & n & -> & _).
  - assert (Hin : c ∈ filter is_tempo (calls doc))
      by (by apply list_elem_of_filter).
    rewrite Htempos in Hin. by apply elem_of_lookup_imap in Hin as (k & n & -> & _).
  - assert (Hin : c ∈ filter is_note (calls doc))
      by (by apply list_elem_of_filter).
    rewrite Hnotes in Hin. by apply list_elem_of_fmap in Hin as (obj & -> & _).
  - assert (Hin : c ∈ filter is_program_change (calls doc))
      by (by apply list_elem_of_filter).
    rewrite Hprog in Hin. apply list_elem_of_fmap in Hin as (n & -> & Hn).
    by apply list_elem_of_fmap in Hn as (obj & -> & _).
Qed.

Lemma all_events_at_time_zero_witness :
  Forall fixed_arguments (calls three_records_document).
Proof.
  exact (all_events_at_time_zero three_records three_records_document
           three_records_built).
Defined.

Lemma follow_app l chunk :
  notes_follow_program_changes l → notes_follow_program_changes chunk →
  notes_follow_program_changes (l ++ chunk).
Proof.
  intros Hl Hchunk i c Hi Hnote.
  apply lookup_app_Some in Hi as [Hi | [Hlen Hi]].
  - destruct (Hl i c Hi Hnote) as (j & -> & Hj).
    exists j. split; [done|]. by apply lookup_app_l_Some.
  - destruct (Hchunk _ c Hi Hnote) as (j & Hij & Hj).
    exists (length l + j). split; [lia|].
    rewrite lookup_app_r by lia. by replace (length l + j - length l) with j by lia.
Qed.

Lemma ensure_track_appends st x :
  ∃ pre, midi (ensure_track st x) = midi st ++ pre
         ∧ notes_follow_program_changes pre.
Proof.
  unfold ensure_track. destruct (track_details st !! x).
  - exists []. split; [by rewrite app_nil_r|]. by intros i c ?.
  - eexists. split; [done|]. intros [|[|i]] c; simpl; try done.
    + by intros [= <-].
    + by intros [= <-].
Qed.

Lemma score_step_follow st obj st' :
  notes_follow_program_changes (midi st) →
  score_step st obj = Ok st' →
  notes_follow_program_changes (midi st').
Proof.
  intros Hst. unfold score_step.
  destruct (getitem obj "instrument_shape") as [v1|]; simpl; [|done].
  destruct (split_value v1 "_") as [parts|]; simpl; [|done].
  destruct (list_index parts 0) as [instrument|]; simpl; [|done].
  destruct (ensure_track_appends st instrument) as (pre & Hpre & Hfollow).
  destruct (track_details (ensure_track st instrument) !! instrument) as [t|];
    simpl; [|done].
  destruct (getitem obj "note_color") as [v2|]; simpl; [|done].
  destruct (split_value v2 "_") as [cparts|]; simpl; [|done].
  destruct (list_index cparts 0) as [token|]; simpl; [|done].
  destruct (getitem obj "size_duration") as [v3|]; simpl; [|done].
  destruct (int_value v3) as [d|]; simpl; [|done].
  intros [= <-]. simpl. rewrite Hpre.
  apply follow_app; [by apply follow_app|].
  intros [|[|i]] c; simpl; try done.
  - by intros [= <-].
  - intros [= <-] _. by exists 0.
Qed.

Lemma score_loop_follow st objs st' :
  notes_follow_program_changes (midi st) →
  for_each score_step st objs = Ok st' →
  notes_follow_program_changes (midi st').
Proof.
  revert st. induction objs as [|obj objs IH]; intros st Hst; simpl.
  - by intros [= <-].
  - destruct (score_step st obj) as [st1|] eqn:Hstep; simpl; [|done].
    apply IH. by eapply score_step_follow.
Qed.

(** X13. Each note is announced by a program change: every note call
    comes immediately after a program-change call on the same track and
    channel (at time 0, program 1), and there is one such pair per
    record. *)
Theorem program_change_before_each_note (objs : list record) (doc : midi_file) :
  build_score objs = Ok doc →
  notes_follow_program_changes (calls doc)
  ∧ length (filter is_note (calls doc)) = length objs
  ∧ length (filter is_program_change (calls doc)) = length objs.
Proof.
  intros Hdoc.
  destruct (build_score_calls _ _ Hdoc) as (_ & _ & _ & Hnotes & Hprog).
  rewrite Hnotes, Hprog, !length_fmap. split; [|done].
  unfold build_score in Hdoc.
  destruct (for_each score_step score_init objs) as [st|] eqn:Hrun; [|done].
  injection Hdoc as <-. simpl.
  eapply score_loop_follow; [|done]. by intros i c ?.
Qed.

Lemma program_change_before_each_note_witness :
  notes_follow_program_changes (calls three_records_document).
Proof.
  exact (proj1 (program_change_before_each_note three_records
                  three_records_document three_records_built)).
Defined.

Lemma score_step_same st obj obj' :
  same_score_fields obj obj' → score_step st obj = score_step st obj'.
Proof.
  intros (H1 & H2 & H3). unfold score_step, getitem. by rewrite H1, H2, H3.
Qed.

(** X14. The score builder reads three fields and nothing else: two
    record sequences that agree, record by record, on [instrument_shape],
    [note_color] and [size_duration] give the same outcome, document or
    exception.  In particular [position] may be dropped from every
    record. *)
Theorem score_reads_three_fields_only (objs objs' : list record) :
  Forall2 same_score_fields objs objs' →
  build_score objs = build_score objs'.
Proof.
  intros Hall. unfold build_score.
  rewrite (Forall2_length _ _ _ Hall).
  assert (Hrun : ∀ st, for_each score_step st objs = for_each score_step st objs').
  { induction Hall as [|obj obj' objs objs' Hobj _ IH]; intros st; simpl; [done|].
    rewrite (score_step_same st obj obj' Hobj).
    destruct (score_step st obj'); simpl; [apply IH | done]. }
  by rewrite Hrun.
Qed.

Lemma score_reads_three_fields_only_witness :
  build_score [full_record "piano_sphere" "C4_red" two_and_a_half]
  = build_score [sample_record "piano_sphere" "C4_red" two_and_a_half].
Proof.
  apply score_reads_three_fields_only.
  constructor; [|constructor]. split_and!; reflexivity.
Defined.

(** On a non-positive finite float, truncation is the ceiling. *)
Lemma truncate_ceiling d q :
  PyFloat.to_Q d = Some q → (q <= 0)%Q → truncate d = Qceiling q.
Proof.
  destruct d as [s| | |s m e]; simpl; try done.
  - by intros [= <-].
  - intros [= <-] Hq.
    assert (s = true) as ->.
    { destruct s; [done|]. exfalso. revert Hq. unfold Qle. simpl.
      destruct e; simpl; lia. }
    unfold Qceiling, Qfloor, Qopp. destruct e as [|k|k]; cbn [Qnum Qden cond_Zopp].
    + rewrite Z.shiftl_0_r, Z.div_1_r. lia.
    + rewrite Z.shiftl_mul_pow2, Z.div_1_r by lia. ring.
    + change (Z.neg k) with (- Z.pos k)%Z.
      rewrite Z.shiftl_opp_r, Z.shiftr_div_pow2 by lia.
      rewrite Pos2Z.inj_pow. by rewrite Z.opp_involutive.
Qed.

(** X15. For a record whose [size_duration] is a finite float [d] with
    [d <= 0], the duration of its note is the ceiling of [d]: negative
    sizes are rounded toward zero and passed on as negative durations;
    the builder does not reject them.  The values read from -2.9 and -0.5
    give -2 and 0. *)
Theorem negative_size_rounds_toward_zero :
  (∀ (st : score_state) (obj : record) (a b : string) (d : spec_float) (q : Q),
     obj !! "instrument_shape" = Some (VStr a) →
     obj !! "note_color" = Some (VStr b) →
     obj !! "size_duration" = Some (VFloat d) →
     PyFloat.to_Q d = Some q → (q <= 0)%Q →
     int_value (VFloat d) = Ok (Qceiling q)
     ∧ ∃ st' track pitch,
         score_step st obj = Ok st'
         ∧ last (midi st') = Some (AddNote track 0 pitch 0 (Qceiling q) 100))
  ∧ (v ← coerce "size_duration" "-2.9"; int_value v) = Ok (-2)%Z
  ∧ (v ← coerce "size_duration" "-0.5"; int_value v) = Ok 0%Z.
Proof.
  split; [|by vm_compute].
  intros st obj a b d q Ha Hb Hd Hq Hneg.
  assert (Hfin : is_finite d = true) by (by destruct d).
  pose proof (truncate_ceiling d q Hq Hneg) as Htr.
  split; [simpl; by rewrite to_int_finite, Htr|].
  assert (Hready : score_ready obj).
  { exists a, b, (VFloat d), (truncate d). split_and!; try done.
    by apply to_int_finite. }
  rewrite (score_step_ready st obj Hready). simpl.
  destruct (ensure_track_known st (instrument_token obj)) as [track ->].
  eexists _, track, _. split; [done|]. simpl.
  rewrite last_app. simpl. unfold beats. rewrite Hd. simpl.
  by rewrite to_int_finite, Htr.
Qed.

Lemma negative_size_rounds_toward_zero_witness :
  ∃ st' track pitch,
    score_step score_init
      (sample_record "piano_sphere" "C4_red" minus_two_and_a_half) = Ok st'
    ∧ last (midi st') = Some (AddNote track 0 pitch 0 (-2) 100).
Proof.
  refine (proj2 (proj1 negative_size_rounds_toward_zero score_init
            (sample_record "piano_sphere" "C4_red" minus_two_and_a_half)
            "piano_sphere" "C4_red" minus_two_and_a_half
            (-5629499534213120 # 2251799813685248)
            _ _ _ _ _)).
  - reflexivity.
  - reflexivity.
  - reflexivity.
  - reflexivity.
  - unfold Qle. simpl. lia.
Defined.

(** X16. A [size_duration] of [inf], [-Infinity] or [nan] is accepted
    by the parser, and the score builder then fails on the record:
    [int] raises [OverflowError] on an infinity and [ValueError] on a
    NaN, whatever the other fields are, and no document is produced. *)
Theorem non_finite_size_aborts_score :
  coerce "size_duration" "inf" = Ok (VFloat (S754_infinity false))
  ∧ coerce "size_duration" "-Infinity" = Ok (VFloat (S754_infinity true))
  ∧ coerce "size_duration" "nan" = Ok (VFloat S754_nan)
  ∧ ∀ (obj : record) (a b : string) (d : spec_float),
      obj !! "instrument_shape" = Some (VStr a) →
      obj !! "note_color" = Some (VStr b) →
      obj !! "size_duration" = Some (VFloat d) →
      is_finite d = false →
      (∀ st, score_step st obj = Err (int_failure d))
      ∧ ∀ pre post,
          (∃ e, build_score (pre ++ obj :: post) = Err e)
          ∧ ∀ st, for_each score_step score_init pre = Ok st →
                  build_score (pre ++ obj :: post) = Err (int_failure d).
Proof.
  split; [by vm_compute|]. split; [by vm_compute|]. split; [by vm_compute|].
  intros obj a b d Ha Hb Hd Hfin.
  assert (Hstep : ∀ st, score_step st obj = Err (int_failure d)).
  { intros st. unfold score_step, getitem, list_index. rewrite Ha, Hb, Hd. simpl.
    rewrite !split_underscore_head. simpl.
    destruct (ensure_track_known st (before_first "_" a)) as [t ->]. simpl.
    by destruct d. }
  split; [done|]. intros pre post. unfold build_score. split.
  - destruct (for_each_cannot_complete score_step score_init pre obj post)
      as [e ->]; eauto.
  - intros st Hpre.
    by rewrite (for_each_first_error _ _ _ _ _ _ _ Hpre (Hstep st)).
Qed.

Lemma non_finite_size_aborts_score_witness :
  build_score [sample_record "piano_sphere" "C4_red" two_and_a_half;
               sample_record "drum_cube" "G4_blue" (S754_infinity false)]
  = Err OverflowError.
Proof.
  refine (proj2 (proj2 (proj2 (proj2 (proj2 non_finite_size_aborts_score))
            (sample_record "drum_cube" "G4_blue" (S754_infinity false))
            "drum_cube" "G4_blue" (S754_infinity false) _ _ _ _)
            [sample_record "piano_sphere" "C4_red" two_and_a_half] []) _ _).
  - reflexivity.
  - reflexivity.
  - reflexivity.
  - reflexivity.
  - reflexivity.
Defined.


Lemma load_error lines e :
  load_objects_from_mvo lines = Err e → ∃ w, e = ValueError w.
Proof.
  unfold load_objects_from_mvo, parse_lines.
  destruct (for_each parse_line parser_init lines) as [st|e'] eqn:Hrun; [done|].
  simpl. intros [= ->].
  destruct (for_each_error_split _ _ _ _ Hrun) as (pre & raw & post & st & _ & _ & Hraw).
  by eapply parse_line_error.
Qed.



(* ===================================================================== *)
(** * Further properties of the scene builder and of a run *)
(* ===================================================================== *)

(** X18. [position] is read only once a sphere or a cube has been
    made: a record without [position] is passed over like any other when
    its shape token is not recognized, and raises [KeyError] when it is. *)
Theorem position_read_only_for_solids
    (actors : list solid) (obj : record) (shape color : string) (size : spec_float) :
  second_token obj "instrument_shape" = Some shape →
  second_token obj "note_color" = Some color →
  float_field obj "size_duration" = Some size →
  obj !! "position" = None →
  scene_step actors obj
  = if recognized shape then Err (KeyError "position") else Ok actors.
Proof.
  intros Hshape Hcolor Hsize Hpos.
  apply second_token_inv in Hshape as (s1 & Hs1 & Hp1).
  apply second_token_inv in Hcolor as (s2 & Hs2 & Hp2).
  unfold float_field in Hsize.
  destruct (obj !! "size_duration") as [[|f|]|] eqn:Hsd; try done.
  injection Hsize as ->.
  unfold scene_step, getitem, list_index, recognized.
  rewrite Hs1, Hs2, Hsd, Hpos. simpl. rewrite Hp1, Hp2. simpl.
  destruct (String.eqb shape "sphere"); [done|].
  by destruct (String.eqb shape "cube").
Qed.

Lemma position_read_only_for_solids_witness :
  scene_step [] (sample_record "piano_sphere" "C4_red" two_and_a_half)
  = Err (KeyError "position")
  ∧ scene_step [] (sample_record "piano_pyramid" "C4_red" two_and_a_half)
    = Ok [].
Proof.
  split.
  - apply (position_read_only_for_solids []
             (sample_record "piano_sphere" "C4_red" two_and_a_half)
             "sphere" "red" two_and_a_half); reflexivity.
  - apply (position_read_only_for_solids []
             (sample_record "piano_pyramid" "C4_red" two_and_a_half)
             "pyramid" "red" two_and_a_half); reflexivity.
Defined.

Lemma scene_step_error_typed actors obj e :
  typed obj → scene_step actors obj = Err e → scene_failure e.
Proof.
  intros Hobj. unfold scene_step, getitem, list_index, scene_failure.
  destruct (obj !! "instrument_shape") as [v1|] eqn:H1; simpl.
  2: { intros [= <-]. right; left. eexists. split; [done|]. set_solver. }
  destruct (typed_string_field _ _ _ Hobj H1) as [a ->]; [done|done|]. simpl.
  destruct (PyStr.split "_" a !! 1) as [shape|]; simpl.
  2: { intros [= <-]. tauto. }
  destruct (obj !! "note_color") as [v2|] eqn:H2; simpl.
  2: { intros [= <-]. right; left. eexists. split; [done|]. set_solver. }
  destruct (typed_string_field _ _ _ Hobj H2) as [b ->]; [done|done|]. simpl.
  destruct (PyStr.split "_" b !! 1) as [color|]; simpl.
  2: { intros [= <-]. tauto. }
  destruct (obj !! "size_duration") as [v3|] eqn:H3; simpl.
  2: { intros [= <-]. right; left. eexists. split; [done|]. set_solver. }
  assert (Hpos : ∀ (g : primitive),
    (pos_field ← match obj !! "position" with
                 | Some v => Ok v
                 | None => Err (KeyError "position")
                 end;
     pos ← position_args pos_field;
     Ok (actors ++ [Solid g color pos])) = Err e →
    (∃ w, e = ValueError w)
    ∨ (∃ key, e = KeyError key
              ∧ key ∈ ["instrument_shape"; "note_color"; "size_duration"; "position"])
    ∨ e = IndexError ∨ e = TypeError).
  { intros g. destruct (obj !! "position") as [v4|]; simpl.
    2: { intros [= <-]. right; left. eexists. split; [done|]. set_solver. }
    destruct (position_args v4) as [pos|e'] eqn:Hp; simpl; [done|].
    intros [= <-].
    assert (e' = TypeError) as ->
      by (destruct v4 as [| |[|x [|y [|z [|]]]]]; simpl in Hp; congruence).
    tauto. }
  destruct (String.eqb shape "sphere");
    [|destruct (String.eqb shape "cube"); [|done]].
  all: destruct (float_arg v3) as [r|e'] eqn:Hr; simpl; [by apply Hpos|];
    intros [= <-];
    assert (e' = TypeError) as -> by (destruct v3; simpl in Hr; congruence);
    tauto.
Qed.

(** X19. A spatial generation can only end with a [ValueError] (from
    the parse), a [KeyError] for one of the four fields the builder
    reads, an [IndexError] (a compound token without underscore) or a
    [TypeError] (a position that is not three numbers).  It never raises
    [AttributeError] or [OverflowError]: the size is used as it is, even
    when it is infinite. *)
Theorem spatial_generation_failures (lines : list string) (e : exn) :
  create_vtk_from_mvo lines = Err e →
  scene_failure e ∧ e ≠ AttributeError ∧ e ≠ OverflowError.
Proof.
  intros Hrun.
  assert (Hfail : scene_failure e).
  { unfold create_vtk_from_mvo in Hrun.
    destruct (load_objects_from_mvo lines) as [res|e'] eqn:Hload; simpl in Hrun.
    - unfold build_scene in Hrun.
      destruct (for_each_error_split _ _ _ _ Hrun)
        as (pre & obj & post & st & Hrec & _ & Hobj).
      eapply scene_step_error_typed; [|done].
      pose proof (parsed_records_typed _ _ Hload) as Ht.
      rewrite Hrec, Forall_app, Forall_cons in Ht. tauto.
    - injection Hrun as ->. left. by eapply load_error. }
  split; [done|].
  destruct Hfail as [[w ->] | [(key & -> & _) | [-> | ->]]]; done.
Qed.

Lemma spatial_generation_failures_witness :
  scene_failure IndexError.
Proof.
  apply (spatial_generation_failures block_without_colour).
  vm_compute. reflexivity.
Defined.





(** X21. The artifacts of a run are those the flags ask for and the
    builders return: a score only with [--midi], a scene only with
    [--vtk] and only when nothing failed before it; the run ends without
    exception exactly when every builder asked for returns; and with
    neither flag the input is not even parsed, so nothing can fail. *)
Theorem artifacts_follow_flags (lines : list string) (midi_flag vtk_flag : bool) :
  (∀ doc, MidiOutput doc ∈ (main lines midi_flag vtk_flag).1 →
          midi_flag = true ∧ create_midi_from_mvo lines = Ok doc)
  ∧ (∀ scene, SceneOutput scene ∈ (main lines midi_flag vtk_flag).1 →
              vtk_flag = true ∧ create_vtk_from_mvo lines = Ok scene
              ∧ (main lines midi_flag vtk_flag).2 = None)
  ∧ ((main lines midi_flag vtk_flag).2 = None
     ↔ (midi_flag = true → ∃ doc, create_midi_from_mvo lines = Ok doc)
       ∧ (vtk_flag = true → ∃ scene, create_vtk_from_mvo lines = Ok scene))
  ∧ (midi_flag = false → vtk_flag = false →
     main lines midi_flag vtk_flag = ([], None)).
Proof.
  unfold main.
  destruct midi_flag, vtk_flag,
    (create_midi_from_mvo lines) as [doc|e1],
    (create_vtk_from_mvo lines) as [scene|e2]; simpl;
    (split_and!;
     [ intros d Hd; set_unfold; intuition congruence
     | intros s Hs; set_unfold; intuition congruence
     | split;
       [ intros Hnone; split; intros Hflag; (discriminate || eauto)
       | intros [Hm Hv];
         try (destruct (Hm eq_refl) as [? ?]; discriminate);
         try (destruct (Hv eq_refl) as [? ?]; discriminate);
         done ]
     | done ]).
Qed.

Lemma artifacts_follow_flags_witness :
  main ["position: here"] false false = ([], None).
Proof.
  apply (proj2 (proj2 (proj2 (artifacts_follow_flags ["position: here"] false false))));
    reflexivity.
Defined.
